(** * XDCR lag collector (cbagent/collectors/xdcr_lag.py)

    A shallow embedding of the [XdcrLag] collector: the marker probe
    [_measure_lags], the worker loop [sample], the thread launcher
    [collect] and the constructor [__init__], together with the state
    they act on (connection pools, the two key-value stores, the metric
    sink, the logger) and the parts of the environment they consult
    (random tokens, the wall clock, store faults, replication). *)

From Stdlib Require Import ZArith QArith.
From Stdlib Require Import Floats.SpecFloat.
From stdpp Require Import base gmap strings list.

Local Open Scope string_scope.
Local Open Scope list_scope.

(** ** Python floats: IEEE-754 binary64, as [spec_float] *)

Module PyFloat.

Definition prec : Z := 53.
Definition emax : Z := 1024.

Definition t : Type := spec_float.

Definition sub (x y : t) : t := SFsub prec emax x y.
Definition mul (x y : t) : t := SFmul prec emax x y.
Definition leb (x y : t) : bool := SFleb x y.

(** [float(n)] for a Python int. *)
Definition of_int (n : Z) : t := binary_normalize prec emax n 0 false.

Definition zero : t := S754_zero false.
Definition thousand : t := Eval vm_compute in of_int 1000.

(** What [time()] can return: a finite double in canonical form. *)
Definition finite (x : t) : bool :=
  match x with
  | S754_zero _ => true
  | S754_finite _ m e => bounded prec emax m e
  | _ => false
  end.

End PyFloat.

(** ** Data model *)

(** Exceptions the collector can meet; all derive from [Exception]. *)
Inductive exn : Type :=
| ConnectionError
| StoreOperationError
| SinkError
| AttributeError.

(** Keyword arguments handed to [Pool(...)]. [unlock_gil] is only passed
    for the destination pool. *)
Record ConnArgs : Type := mkConnArgs {
  ca_bucket : string;
  ca_host : string;
  ca_username : string;
  ca_password : string;
  ca_quiet : bool;
  ca_unlock_gil : option bool
}.

(** A client handle: a connection to one bucket on one host. *)
Record Client : Type := mkClient {
  cl_host : string;
  cl_bucket : string;
  cl_no : nat
}.

(** The store a client talks to, and the address of a key in it. *)
Definition site : Type := string * string.
Definition addr : Type := site * string.
Definition site_of (c : Client) : site := (cl_host c, cl_bucket c).

(** Modelled from the spec: the [Pool] class of
    cbagent/collectors/libstats/pool.py is not part of the sources at
    hand.  The spec (4.1) gives its contract: [acquire] reuses an idle
    handle or creates a new one under a pool-defined limit and may block
    when exhausted; [release] returns the handle to the idle set;
    connections are established on first use of a slot. *)
Record Pool : Type := mkPool {
  connargs : ConnArgs;
  idle : list Client;
  created : nat;
  limit : nat
}.

(** Number of handles the pool can still hand out without blocking. *)
Definition capacity (p : Pool) : nat := length (idle p) + (limit p - created p).

(** The record returned by [client.get]; [value] is [None] for an absent key. *)
Record GetResult : Type := mkGetResult { value : option string }.

(** Python truthiness of [r.value]: [None] and the empty string are falsy. *)
Definition truthy (v : option string) : bool :=
  match v with
  | None => false
  | Some s => negb (String.eqb s "")
  end.

(** One sample as it reaches the sink: the [lags] dict and the keyword
    arguments of [store.append]. *)
Record SinkEntry : Type := mkSinkEntry {
  se_lags : gmap string PyFloat.t;
  se_cluster : string;
  se_bucket : string;
  se_collector : string
}.

(** History of the calls made, oldest first.  [EvIter] is a ghost event
    marking the start of one per-bucket iteration of the worker loop. *)
Inductive Event : Type :=
| EvAcquire (pool : nat) (c : Client)
| EvRelease (pool : nat) (c : Client)
| EvUhex (token : string)
| EvSet (c : Client) (k v : string)
| EvGet (c : Client) (k : string) (v : option string)
| EvDelete (c : Client) (k : string)
| EvTime (now : PyFloat.t)
| EvSleep (secs : Q)
| EvAppend (e : SinkEntry)
| EvWarn (e : exn)
| EvIter (bucket : string).

(** What the program does not control: the n-th value of [uuid4().hex],
    the n-th reading of [time()], whether the n-th pool, store or sink
    operation fails, what the outside world (replication, other
    writers) does to the stores just before the n-th operation, the
    pool-defined limit on live handles, and the result of the inherited
    [get_buckets()]. *)
Record Env : Type := mkEnv {
  tokens : nat -> string;
  clock : nat -> PyFloat.t;
  fault : nat -> bool;
  interfere : nat -> gmap addr string -> gmap addr string;
  max_clients : nat;
  get_buckets : list string
}.

(** The mutable state: three counters into the environment, the heap of
    pool objects (a reference is an index), the contents of all stores,
    what the sink and the logger received, and the history. *)
Record World : Type := mkWorld {
  n_uuid : nat;
  n_time : nat;
  n_op : nat;
  pools : list Pool;
  stores : gmap addr string;
  sink : list SinkEntry;
  log : list exn;
  trace : list Event
}.

Definition set_pools (ps : list Pool) (w : World) : World :=
  mkWorld (n_uuid w) (n_time w) (n_op w) ps (stores w) (sink w) (log w) (trace w).
Definition set_stores (s : gmap addr string) (w : World) : World :=
  mkWorld (n_uuid w) (n_time w) (n_op w) (pools w) s (sink w) (log w) (trace w).
Definition set_sink (s : list SinkEntry) (w : World) : World :=
  mkWorld (n_uuid w) (n_time w) (n_op w) (pools w) (stores w) s (log w) (trace w).
Definition set_log (l : list exn) (w : World) : World :=
  mkWorld (n_uuid w) (n_time w) (n_op w) (pools w) (stores w) (sink w) l (trace w).
Definition emit (e : Event) (w : World) : World :=
  mkWorld (n_uuid w) (n_time w) (n_op w) (pools w) (stores w) (sink w) (log w)
          (trace w ++ [e]).
Definition next_uuid (w : World) : World :=
  mkWorld (S (n_uuid w)) (n_time w) (n_op w) (pools w) (stores w) (sink w) (log w) (trace w).
Definition next_time (w : World) : World :=
  mkWorld (n_uuid w) (S (n_time w)) (n_op w) (pools w) (stores w) (sink w) (log w) (trace w).
Definition next_op (w : World) : World :=
  mkWorld (n_uuid w) (n_time w) (S (n_op w)) (pools w) (stores w) (sink w) (log w) (trace w).

(** ** Computations: state, exceptions, and the ways of not returning *)

(** [Blocked]: waiting for a pool handle that nobody releases.
    [StillPolling]: the poll loop outlived the fuel given to it.
    [StillLooping]: the worker loop outlived the rounds given to it. *)
Inductive stall : Type :=
| Blocked
| StillPolling
| StillLooping.

Inductive outcome (A : Type) : Type :=
| Ret (a : A) (w : World)
| Raise (e : exn) (w : World)
| Stall (s : stall) (w : World).
Arguments Ret {A} a w.
Arguments Raise {A} e w.
Arguments Stall {A} s w.

Definition world_of {A} (o : outcome A) : World :=
  match o with Ret _ w | Raise _ w | Stall _ w => w end.

Definition Run (A : Type) : Type := World -> outcome A.

#[global] Instance Run_ret : MRet Run := fun A a w => Ret a w.
#[global] Instance Run_bind : MBind Run := fun A B f m w =>
  match m w with
  | Ret a w' => f a w'
  | Raise e w' => Raise e w'
  | Stall s w' => Stall s w'
  end.

Definition stall_with {A} (s : stall) : Run A := fun w => Stall s w.
Definition tell (e : Event) : Run unit := fun w => Ret () (emit e w).

(** [try: m except Exception as e: h e] *)
Definition try_except {A} (m : Run A) (h : exn -> Run A) : Run A := fun w =>
  match m w with
  | Raise e w' => h e w'
  | o => o
  end.

(** ** The collector object and its class constants *)

Record Settings : Type := mkSettings {
  master_node : string;
  dest_master_node : string;
  rest_password : string;
  settings_cluster : string
}.

(** [self]: the cluster label set by the base class and [self.pools],
    a list of [(bucket, src_pool, dst_pool)] with pools by reference. *)
Record Collector : Type := mkCollector {
  cluster : string;
  self_pools : list (string * nat * nat)
}.

Definition COLLECTOR : string := "xdcr_lag".
Definition METRICS : list string := ["xdcr_lag"].
Definition NUM_THREADS : nat := 10.

(** ["xdcr_track_{}".format(h)] *)
Definition marker_key (h : string) : string := "xdcr_track_" +:+ h.

(** The argument of [sleep(0.05)], in seconds. *)
Definition poll_interval : Q := 0.05%Q.

Section Program.

Variable env : Env.

(** ** Primitive operations *)

(** [uhex = lambda: uuid4().hex] *)
Definition uhex : Run string := fun w =>
  let h := tokens env (n_uuid w) in
  Ret h (emit (EvUhex h) (next_uuid w)).

(** [time()] *)
Definition time : Run PyFloat.t := fun w =>
  let now := clock env (n_time w) in
  Ret now (emit (EvTime now) (next_time w)).

(** [sleep(secs)] *)
Definition sleep (secs : Q) : Run unit := tell (EvSleep secs).

(** Modelled from the spec: the constructor [Pool(...)] (spec 4.1 and 4.4); the
    constructor is not in the sources at hand.  A new pool starts with
    no live handle: connections are established on first use. *)
Definition new_pool (args : ConnArgs) : Run nat := fun w =>
  Ret (length (pools w))
      (set_pools (pools w ++ [mkPool args [] 0 (max_clients env)]) w).

(** Modelled from the spec: [Pool.get_client] (spec 4.1, [acquire]).
    Fails with [ConnectionError] when the host cannot be reached,
    otherwise reuses an idle handle, else creates one under the limit,
    else blocks. *)
Definition hand_out (pl : Pool) : option (Client * Pool) :=
  match idle pl with
  | c :: rest => Some (c, mkPool (connargs pl) rest (created pl) (limit pl))
  | [] =>
      if Nat.ltb (created pl) (limit pl) then
        Some (mkClient (ca_host (connargs pl)) (ca_bucket (connargs pl)) (created pl),
              mkPool (connargs pl) [] (S (created pl)) (limit pl))
      else None
  end.

Definition get_client (p : nat) : Run Client := fun w =>
  match pools w !! p with
  | None => Raise AttributeError w
  | Some pl =>
      if fault env (n_op w) then Raise ConnectionError (next_op w)
      else
        match hand_out pl with
        | Some (c, pl') =>
            Ret c (emit (EvAcquire p c)
                        (set_pools (<[p := pl']> (pools w)) (next_op w)))
        | None => Stall Blocked w
        end
  end.

(** Modelled from the spec: [Pool.release_client] (spec 4.1,
    [release]): the handle goes back to the idle set. *)
Definition give_back (pl : Pool) (c : Client) : Pool :=
  mkPool (connargs pl) (idle pl ++ [c]) (created pl) (limit pl).

Definition release_client (p : nat) (c : Client) : Run unit := fun w =>
  match pools w !! p with
  | None => Raise AttributeError w
  | Some pl =>
      Ret () (emit (EvRelease p c) (set_pools (<[p := give_back pl c]> (pools w)) w))
  end.

(** The store protocol (spec 6): [set], [get], [delete] through a
    client, each of which may fail.  The outside world acts on the
    stores first. *)
Definition store_op {A} (f : gmap addr string -> A * gmap addr string * Event)
  : Run A := fun w =>
  let s := interfere env (n_op w) (stores w) in
  if fault env (n_op w) then Raise StoreOperationError (set_stores s (next_op w))
  else
    let '(a, s', ev) := f s in
    Ret a (emit ev (set_stores s' (next_op w))).

Definition client_set (c : Client) (k v : string) : Run unit :=
  store_op (fun s => ((), <[(site_of c, k) := v]> s, EvSet c k v)).

Definition client_get (c : Client) (k : string) : Run GetResult :=
  store_op (fun s =>
    let v := s !! (site_of c, k) in (mkGetResult v, s, EvGet c k v)).

Definition client_delete (c : Client) (k : string) : Run unit :=
  store_op (fun s => ((), delete (site_of c, k) s, EvDelete c k)).

(** [self.store.append(lags, cluster=..., bucket=..., collector=...)] *)
Definition store_append (lags : gmap string PyFloat.t)
    (cluster bucket collector : string) : Run unit := fun w =>
  if fault env (n_op w) then Raise SinkError (next_op w)
  else
    let e := mkSinkEntry lags cluster bucket collector in
    Ret () (emit (EvAppend e) (set_sink (sink w ++ [e]) (next_op w))).

(** [logger.warn(e)] *)
Definition logger_warn (e : exn) : Run unit := fun w =>
  Ret () (emit (EvWarn e) (set_log (log w ++ [e]) w)).

(** ** [XdcrLag.__init__] *)

(** The [for bucket in self.get_buckets()] loop; [acc] is [self.pools]. *)
Fixpoint init_pools (settings : Settings) (buckets : list string)
    (acc : list (string * nat * nat)) : Run (list (string * nat * nat)) :=
  match buckets with
  | [] => mret acc
  | bucket :: rest =>
      src_pool ← new_pool (mkConnArgs bucket (master_node settings) bucket
                                      (rest_password settings) true None);
      dst_pool ← new_pool (mkConnArgs bucket (dest_master_node settings) bucket
                                      (rest_password settings) true (Some false));
      init_pools settings rest (acc ++ [(bucket, src_pool, dst_pool)])
  end.

Definition __init__ (settings : Settings) : Run Collector :=
  ps ← init_pools settings (get_buckets env) [];
  mret (mkCollector (settings_cluster settings) ps).

(** ** [XdcrLag._measure_lags] *)

(** The [while True] loop of lines 52-57; [fuel] bounds the number of
    reads the model follows. *)
Fixpoint poll (fuel : nat) (dst_client : Client) (key : string) : Run unit :=
  match fuel with
  | O => stall_with StillPolling
  | S fuel' =>
      r ← client_get dst_client key;
      if truthy (value r) then mret ()
      else sleep poll_interval;; poll fuel' dst_client key
  end.

(** Line 48: [key = "xdcr_track_{}".format(uhex())]. *)
Definition gen_key : Run string :=
  h ← uhex; mret (marker_key h).

Definition _measure_lags (fuel : nat) (src_pool dst_pool : nat)
  : Run (gmap string PyFloat.t) :=
  src_client ← get_client src_pool;
  dst_client ← get_client dst_pool;
  key ← gen_key;
  client_set src_client key key;;
  t0 ← time;
  poll fuel dst_client key;;
  t1 ← time;
  client_delete src_client key;;
  release_client src_pool src_client;;
  release_client dst_pool dst_client;;
  mret {[ "xdcr_lag" := PyFloat.mul (PyFloat.sub t1 t0) PyFloat.thousand ]}.

(** ** [XdcrLag.sample] *)

(** The [for bucket, src_pool, dst_pool in self.pools] loop. *)
Fixpoint for_pools (fuel : nat) (self : Collector)
    (ps : list (string * nat * nat)) : Run unit :=
  match ps with
  | [] => mret ()
  | (bucket, src_pool, dst_pool) :: rest =>
      tell (EvIter bucket);;
      lags ← _measure_lags fuel src_pool dst_pool;
      store_append lags (cluster self) bucket COLLECTOR;;
      for_pools fuel self rest
  end.

(** The [while True] loop; [rounds] bounds the number of passes the
    model follows.  There is no way out of the loop. *)
Fixpoint sample (rounds fuel : nat) (self : Collector) : Run unit :=
  match rounds with
  | O => stall_with StillLooping
  | S rounds' =>
      try_except (for_pools fuel self (self_pools self))
                 (fun e => logger_warn e);;
      sample rounds' fuel self
  end.

End Program.

(** ** [XdcrLag.collect] and the threads it starts *)

Module Threads.

(** What a [Thread] runs: here always the bound method [self.sample]. *)
Inductive target : Type :=
| Sample (self : Collector).

Inductive status : Type :=
| Created
| Running
| Finished.

Record Thread : Type := mkThread {
  th_target : target;
  th_status : status
}.

(** What is left for the calling thread to do, on threads by index. *)
Inductive op : Type :=
| Start (t : nat)
| Join (t : nat).

Record Config : Type := mkConfig {
  table : list Thread;
  todo : list op
}.

(** [collect]: the list comprehension builds the threads, the two
    [map] calls (eager lists in Python 2) start them and then join
    them, in list order. *)
Definition collect (self : Collector) : Config :=
  let threads := (fun _ => mkThread (Sample self) Created) <$> seq 0 NUM_THREADS in
  let refs := seq 0 (length threads) in
  mkConfig threads ((Start <$> refs) ++ (Join <$> refs)).

(** A thread ends when its target returns or dies of an exception. *)
Definition ends (tg : target) : Prop :=
  match tg with
  | Sample self =>
      exists env rounds fuel w o,
        sample env rounds fuel self w = o /\
        match o with Stall _ _ => False | _ => True end
  end.

(** [start] sets a created thread running; [join] returns only once
    the thread has finished; a running thread finishes when its target
    ends. *)
Inductive step : Config -> Config -> Prop :=
| step_start tb i rest th :
    tb !! i = Some th -> th_status th = Created ->
    step (mkConfig tb (Start i :: rest))
         (mkConfig (<[i := mkThread (th_target th) Running]> tb) rest)
| step_join tb i rest th :
    tb !! i = Some th -> th_status th = Finished ->
    step (mkConfig tb (Join i :: rest)) (mkConfig tb rest)
| step_finish tb i td th :
    tb !! i = Some th -> th_status th = Running -> ends (th_target th) ->
    step (mkConfig tb td)
         (mkConfig (<[i := mkThread (th_target th) Finished]> tb) td).

End Threads.

(** ** Vocabulary of the statements *)

Section Vocabulary.

Variable env : Env.

(** The world after each successful step of a measurement. *)
Definition acquired (p : nat) (c : Client) (pl' : Pool) (w : World) : World :=
  emit (EvAcquire p c) (set_pools (<[p := pl']> (pools w)) (next_op w)).

Definition released (p : nat) (c : Client) (pl : Pool) (w : World) : World :=
  emit (EvRelease p c) (set_pools (<[p := give_back pl c]> (pools w)) w).

Definition keyed (h : string) (w : World) : World :=
  emit (EvUhex h) (next_uuid w).

Definition timed (now : PyFloat.t) (w : World) : World :=
  emit (EvTime now) (next_time w).

Definition written (c : Client) (k v : string) (w : World) : World :=
  emit (EvSet c k v)
       (set_stores (<[(site_of c, k) := v]> (interfere env (n_op w) (stores w)))
                   (next_op w)).

Definition deleted (c : Client) (k : string) (w : World) : World :=
  emit (EvDelete c k)
       (set_stores (delete (site_of c, k) (interfere env (n_op w) (stores w)))
                   (next_op w)).

(** What a read of [key] through [c] returns when issued in [w]. *)
Definition seen (c : Client) (key : string) (w : World) : option string :=
  interfere env (n_op w) (stores w) !! (site_of c, key).

(** The world after a read that did not fail, and after a read that
    missed followed by the pause. *)
Definition after_get (c : Client) (key : string) (w : World) : World :=
  emit (EvGet c key (seen c key w))
       (set_stores (interfere env (n_op w) (stores w)) (next_op w)).

Definition miss (c : Client) (key : string) (w : World) : World :=
  emit (EvSleep poll_interval) (after_get c key w).

(** The world in which the poll loop issues its read number [i]
    (counting from 0), all earlier ones having missed. *)
Definition at_read (c : Client) (key : string) (w : World) (i : nat) : World :=
  Nat.iter i (miss c key) w.

(** Read number [i] comes back, with a falsy or a truthy value. *)
Definition read_misses (c : Client) (key : string) (w : World) (i : nat) : Prop :=
  fault env (n_op (at_read c key w i)) = false /\
  truthy (seen c key (at_read c key w i)) = false.

Definition read_hits (c : Client) (key : string) (w : World) (i : nat) : Prop :=
  fault env (n_op (at_read c key w i)) = false /\
  truthy (seen c key (at_read c key w i)) = true.

(** The marker becomes visible at read [n] and not before. *)
Definition appears_at (c : Client) (key : string) (w : World) (n : nat) : Prop :=
  (forall i, i < n -> read_misses c key w i) /\ read_hits c key w n.

(** The chain of worlds of a call that returns: up to the first clock
    reading, up to the deletion, and after both releases. *)
Definition stage_written (sp dp : nat) (c1 c2 : Client) (pl1' pl2' : Pool)
    (w : World) : World :=
  let h := tokens env (n_uuid w) in
  timed (clock env (n_time w))
    (written c1 (marker_key h) (marker_key h)
       (keyed h (acquired dp c2 pl2' (acquired sp c1 pl1' w)))).

Definition stage_cleaned (c1 c2 : Client) (key : string) (t1 : PyFloat.t)
    (n : nat) (w5 : World) : World :=
  deleted c1 key (timed t1 (after_get c2 key (at_read c2 key w5 n))).

Definition measured (fuel sp dp : nat) (w : World) (lags : gmap string PyFloat.t)
    (w' : World) (c1 c2 : Client) (n : nat) : Prop :=
  exists pl1 pl1' pl2 pl2' pl3 pl4,
    let key := marker_key (tokens env (n_uuid w)) in
    let t0 := clock env (n_time w) in
    let t1 := clock env (S (n_time w)) in
    let w5 := stage_written sp dp c1 c2 pl1' pl2' w in
    let w8 := stage_cleaned c1 c2 key t1 n w5 in
    pools w !! sp = Some pl1 /\ hand_out pl1 = Some (c1, pl1') /\
    pools (acquired sp c1 pl1' w) !! dp = Some pl2 /\
    hand_out pl2 = Some (c2, pl2') /\
    n < fuel /\ appears_at c2 key w5 n /\
    pools w8 !! sp = Some pl3 /\
    pools (released sp c1 pl3 w8) !! dp = Some pl4 /\
    w' = released dp c2 pl4 (released sp c1 pl3 w8) /\
    lags = {[ "xdcr_lag" := PyFloat.mul (PyFloat.sub t1 t0) PyFloat.thousand ]}.

End Vocabulary.

(** Events of [n] missed reads: a read and a pause each. *)
Definition miss_events (c : Client) (key : string) (vs : list (option string))
  : list Event :=
  vs ≫= (fun v => [EvGet c key v; EvSleep poll_interval]).

Definition capacity_of (w : World) (p : nat) : option nat :=
  capacity <$> (pools w !! p).

Definition is_get (e : Event) : bool :=
  match e with EvGet _ _ _ => true | _ => false end.
Definition is_set (e : Event) : bool :=
  match e with EvSet _ _ _ => true | _ => false end.
Definition is_delete (e : Event) : bool :=
  match e with EvDelete _ _ => true | _ => false end.
Definition is_iter (e : Event) : bool :=
  match e with EvIter _ => true | _ => false end.

Definition is_pool_event (e : Event) : bool :=
  match e with EvAcquire _ _ | EvRelease _ _ => true | _ => false end.
Definition is_store_event_of (c : Client) (e : Event) : bool :=
  match e with
  | EvSet c' _ _ | EvGet c' _ _ | EvDelete c' _ =>
      bool_decide (site_of c' = site_of c)
  | _ => false
  end.

(** The history a returning call adds. *)
Definition call_events (sp dp : nat) (c1 c2 : Client) (h : string)
    (t0 t1 : PyFloat.t) (vs : list (option string)) (v : option string)
  : list Event :=
  [EvAcquire sp c1; EvAcquire dp c2; EvUhex h;
   EvSet c1 (marker_key h) (marker_key h); EvTime t0]
  ++ miss_events c2 (marker_key h) vs
  ++ [EvGet c2 (marker_key h) v; EvTime t1; EvDelete c1 (marker_key h);
      EvRelease sp c1; EvRelease dp c2].

(** The world in which the poll loop of a call starts, [w2] being the
    world after both acquisitions: the token is drawn, the marker is
    written with the key as its value, and [t0] is read (lines 48-51). *)
Definition loop_start (env : Env) (c1 : Client) (w2 : World) : World :=
  let h := tokens env (n_uuid w2) in
  timed (clock env (n_time w2))
        (written env c1 (marker_key h) (marker_key h) (keyed h w2)).

(** The history of a call up to the start of its loop. *)
Definition entry_events (sp dp : nat) (c1 c2 : Client) (h : string)
    (t0 : PyFloat.t) : list Event :=
  [EvAcquire sp c1; EvAcquire dp c2; EvUhex h;
   EvSet c1 (marker_key h) (marker_key h); EvTime t0].

(** A call started in [w] has made its second clock reading, [t1] of
    line 58: the statement that follows the loop has been executed. *)
Definition left_loop (w w' : World) : Prop := n_time w' = S (S (n_time w)).

(** The resource-balance reading of "every exit path": whenever the
    call is over, by return or by exception, every pool can hand out
    as many handles as before. *)
Definition balanced_on_exit (env : Env) (fuel sp dp : nat) (w : World) : Prop :=
  match _measure_lags env fuel sp dp w with
  | Ret _ w' | Raise _ w' => forall p, capacity_of w' p = capacity_of w p
  | Stall _ _ => True
  end.

(** ** Reading the sign of a float *)

(** The result carries the sign [sx]; the result is zero or positive. *)
Definition same_sign (sx : bool) (r : spec_float) : Prop :=
  match r with
  | S754_zero s | S754_infinity s | S754_finite s _ _ => s = sx
  | S754_nan => False
  end.

Definition nonneg (r : spec_float) : Prop :=
  match r with
  | S754_zero _ => True
  | S754_infinity s | S754_finite s _ _ => s = false
  | S754_nan => False
  end.

(** ** Reading the history of the worker loop *)

Definition is_append (e : Event) : bool :=
  match e with EvAppend _ => true | _ => false end.
Definition is_warn (e : Event) : bool :=
  match e with EvWarn _ => true | _ => false end.

(** An event of the measurement itself: not one of the worker loop. *)
Definition plain (e : Event) : bool :=
  negb (is_iter e || is_append e || is_warn e).

(** The samples handed to the sink, the exceptions logged and the
    buckets whose iteration was started, in order. *)
Definition appended (evs : list Event) : list SinkEntry :=
  omap (fun e => match e with EvAppend x => Some x | _ => None end) evs.
Definition warned (evs : list Event) : list exn :=
  omap (fun e => match e with EvWarn x => Some x | _ => None end) evs.
Definition iterated (evs : list Event) : list string :=
  omap (fun e => match e with EvIter b => Some b | _ => None end) evs.

(** [w'] is [w] after the events [evs]: the sink and the log grew by
    what the events say. *)
Definition extends (w w' : World) (evs : list Event) : Prop :=
  trace w' = trace w ++ evs /\
  sink w' = sink w ++ appended evs /\
  log w' = log w ++ warned evs.

(** The events a run added to the history of [w]. *)
Definition added (w w' : World) : list Event :=
  drop (length (trace w)) (trace w').






Definition buckets_of (self : Collector) : list string :=
  (fun p => fst (fst p)) <$> self_pools self.


(** ** Reading the pools built by the constructor *)

(** The two pools [__init__] builds for bucket [b]: source first. *)
Definition pool_pair (settings : Settings) (limit : nat) (b : string) : list Pool :=
  [mkPool (mkConnArgs b (master_node settings) b (rest_password settings) true None)
          [] 0 limit;
   mkPool (mkConnArgs b (dest_master_node settings) b (rest_password settings) true
                      (Some false))
          [] 0 limit].

(** The entries of [self.pools] when the heap held [n] pools before. *)
Definition pool_refs (n : nat) (buckets : list string) : list (string * nat * nat) :=
  imap (fun i b => (b, n + 2 * i, n + 2 * i + 1)) buckets.

(** Which pools exist, and for what: the heap up to the handles. *)
Definition pool_set (w : World) : list ConnArgs := connargs <$> pools w.

(** The threads and pending operations of [collect] once [k] of the [n]
    threads have been started. *)
Definition lineup (self : Collector) (n k : nat) : Threads.Config :=
  Threads.mkConfig
    (replicate k (Threads.mkThread (Threads.Sample self) Threads.Running)
     ++ replicate (n - k) (Threads.mkThread (Threads.Sample self) Threads.Created))
    ((Threads.Start <$> seq k (n - k)) ++ (Threads.Join <$> seq 0 n)).

(** A computation of the measurement: it adds only plain events, and
    when it does not come back it is blocked or polling. *)
Definition tame {A} (m : Run A) : Prop :=
  forall w, exists evs,
    extends w (world_of (m w)) evs /\
    Forall (fun e => plain e = true) evs /\
    (forall w', m w <> Stall StillLooping w').

(** Nothing in the worker loop creates or destroys a pool, or changes
    what a pool is for. *)
Definition keeps {A} (m : Run A) : Prop :=
  forall w, pool_set (world_of (m w)) = pool_set w.

(** ** Vocabulary of the further properties *)

Definition is_release (e : Event) : bool :=
  match e with EvRelease _ _ => true | _ => false end.
Definition is_uhex (e : Event) : bool :=
  match e with EvUhex _ => true | _ => false end.

Definition is_sleep (e : Event) : bool :=
  match e with EvSleep _ => true | _ => false end.

(** A call on a pool or through a client. *)
Definition is_call (e : Event) : bool :=
  is_pool_event e || is_set e || is_get e || is_delete e.

(** The keys written by the [set] calls of a history, in order. *)
Definition set_keys (evs : list Event) : list string :=
  omap (fun e => match e with EvSet _ k _ => Some k | _ => None end) evs.

(** All pool references held by [self.pools], in order. *)
Definition refs_of (ps : list (string * nat * nat)) : list nat :=
  ps ≫= (fun p => [snd (fst p); snd p]).

(** A pass that fails at once on its first bucket: the iteration is
    started and the exception is logged. *)
Definition failed_pass (b0 : string) (e : exn) : list Event :=
  [EvIter b0; EvWarn e].

(** A sink entry as the worker loop of [self] tags it. *)
Definition tagged (self : Collector) (e : SinkEntry) : Prop :=
  se_cluster e = cluster self /\
  se_collector e = COLLECTOR /\
  se_bucket e ∈ buckets_of self /\
  dom (se_lags e) = list_to_set METRICS.

(** A computation that writes no key and draws no token. *)
Definition setless {A} (m : Run A) : Prop :=
  forall w, exists evs,
    trace (world_of (m w)) = trace w ++ evs /\
    set_keys evs = [] /\
    n_uuid (world_of (m w)) = n_uuid w.

(** [w'] is [w] after the events [evs], whose [set] calls wrote the
    keys of the tokens numbered [idxs], each drawn in between and none
    used twice. *)
Definition keys_drawn (env : Env) (w w' : World) (evs : list Event)
    (idxs : list nat) : Prop :=
  trace w' = trace w ++ evs /\
  n_uuid w <= n_uuid w' /\
  set_keys evs = (fun i => marker_key (tokens env i)) <$> idxs /\
  NoDup idxs /\
  Forall (fun i => n_uuid w <= i < n_uuid w') idxs.

Definition drawing (env : Env) {A} (m : Run A) : Prop :=
  forall w, exists evs idxs, keys_drawn env w (world_of (m w)) evs idxs.

(** ** A concrete deployment, for examples *)

Module Scenario.

Definition settings : Settings :=
  mkSettings "src.example" "dst.example" "secret" "east".

(** Replication: every entry of a source bucket shows up in the same
    bucket at the destination. *)
Definition mirror (s : gmap addr string) : gmap addr string :=
  map_fold (fun (a : addr) (v : string) (acc : gmap addr string) =>
              if String.eqb (fst (fst a)) "src.example"
              then <[(("dst.example", snd (fst a)), snd a) := v]> acc
              else acc)
           s s.

(** Two buckets, pools of at most two handles, a clock ticking once a
    second, tokens ["a"], ["aa"], ...; replication catches up just
    before every even-numbered operation; the operations listed in
    [faulty] fail. *)
Definition env_with (faulty : list nat) : Env :=
  mkEnv (fun n => String.concat "" (replicate (S n) "a"))
        (fun n => PyFloat.of_int (1700000000 + Z.of_nat n))
        (fun n => bool_decide (n ∈ faulty))
        (fun n s => if Nat.even n then mirror s else s)
        2
        ["beer"; "wine"].

Definition healthy : Env := env_with [].

(** A destination on which [a] holds nothing during the first [n]
    operations and ["x"] from then on; nothing ever fails. *)
Definition late (n : nat) (a : addr) : Env :=
  mkEnv (fun _ => "a") (fun _ => PyFloat.zero) (fun _ => false)
        (fun k s => if Nat.ltb k n then delete a s else <[a := "x"]> s)
        2 [].

(** A destination on which nothing changes and nothing fails. *)
Definition still : Env :=
  mkEnv (fun _ => "a") (fun _ => PyFloat.zero) (fun _ => false)
        (fun _ s => s) 2 [].

Definition some_client : Client := mkClient "dst.example" "beer" 0.

(** Replication of one marker: just before operation [k] the value [v]
    arrives at [a], unless [a] already holds something. *)
Definition arriving (k : nat) (a : addr) (v : string) : Env :=
  mkEnv (fun n => String.concat "" (replicate (S n) "a"))
        (fun n => PyFloat.of_int (1700000000 + Z.of_nat n))
        (fun _ => false)
        (fun n s => if Nat.eqb n k
                    then match s !! a with None => <[a := v]> s | Some _ => s end
                    else s)
        2
        ["beer"; "wine"].

Definition blank : World := mkWorld 0 0 0 [] ∅ [] [] [].

(** The collector and the world right after construction. *)
Definition self : Collector :=
  match __init__ healthy settings blank with
  | Ret c _ => c
  | _ => mkCollector "" []
  end.

Definition ready : World := world_of (__init__ healthy settings blank).

(** A world in which the marker ["k"] reached the destination with an
    empty value. *)
Definition emptied : World :=
  mkWorld 0 0 0 [] {[ (site_of some_client, "k") := "" ]} [] [] [].

(** A deployment in which every pool, store and sink operation fails. *)
Definition down : Env :=
  mkEnv (fun n => String.concat "" (replicate (S n) "a"))
        (fun n => PyFloat.of_int (1700000000 + Z.of_nat n))
        (fun _ => true)
        (fun _ s => s)
        2
        ["beer"; "wine"].

(** A deployment whose two clusters are one and the same host, with one
    bucket, where nothing fails and nobody else writes. *)
Definition loop_settings : Settings :=
  mkSettings "one.example" "one.example" "secret" "east".

Definition alone : Env :=
  mkEnv (fun n => String.concat "" (replicate (S n) "a"))
        (fun n => PyFloat.of_int (1700000000 + Z.of_nat n))
        (fun _ => false)
        (fun _ s => s)
        2
        ["beer"].

Definition looped : World := world_of (__init__ alone loop_settings blank).

(** The first handle of the source pool of ["beer"], and the world with
    the first handle of each pool of ["beer"] handed out. *)
Definition src_client : Client := mkClient "src.example" "beer" 0.

Definition both_held (env : Env) : World :=
  world_of (get_client env 1 (world_of (get_client env 0 ready))).

(** The world in which the loop of a first measurement on ["beer"]
    starts on the healthy deployment. *)
Definition at_loop : World := loop_start healthy src_client (both_held healthy).

(** The healthy deployment with [uuid4] giving the empty token. *)
Definition bare : Env :=
  mkEnv (fun _ => "")
        (fun n => PyFloat.of_int (1700000000 + Z.of_nat n))
        (fun _ => false)
        (fun n s => if Nat.even n then mirror s else s)
        2
        ["beer"; "wine"].

End Scenario.

(** * Properties *)

(** ** The monad *)

Lemma bind_run {A B} (m : Run A) (f : A -> Run B) w :
  (m ≫= f) w =
  match m w with
  | Ret a w' => f a w'
  | Raise e w' => Raise e w'
  | Stall s w' => Stall s w'
  end.
Proof. reflexivity. Qed.

Lemma bind_Ret {A B} (m : Run A) (f : A -> Run B) w b w' :
  (m ≫= f) w = Ret b w' ->
  exists a w1, m w = Ret a w1 /\ f a w1 = Ret b w'.
Proof.
  rewrite bind_run. destruct (m w) as [a w1|e w1|s w1]; [eauto|done|done].
Qed.

Ltac run_inv H :=
  let a := fresh "a" in
  let w := fresh "w" in
  let Hm := fresh "Hrun" in
  apply bind_Ret in H; destruct H as (a & w & Hm & H).

(** ** Primitive operations *)

Section Primitives.

Variable env : Env.

Lemma uhex_run w :
  uhex env w = Ret (tokens env (n_uuid w)) (keyed (tokens env (n_uuid w)) w).
Proof. reflexivity. Qed.

Lemma gen_key_run w :
  gen_key env w = Ret (marker_key (tokens env (n_uuid w)))
                      (keyed (tokens env (n_uuid w)) w).
Proof. reflexivity. Qed.

Lemma time_run w :
  time env w = Ret (clock env (n_time w)) (timed (clock env (n_time w)) w).
Proof. reflexivity. Qed.

Lemma get_client_Ret p w c w' :
  get_client env p w = Ret c w' ->
  exists pl pl',
    pools w !! p = Some pl /\ hand_out pl = Some (c, pl') /\
    fault env (n_op w) = false /\ w' = acquired p c pl' w.
Proof.
  unfold get_client. destruct (pools w !! p) as [pl|]; [|done].
  destruct (fault env (n_op w)); [done|].
  destruct (hand_out pl) as [[c' pl']|] eqn:Hh; [|done].
  intros [= <- <-]. eauto 10.
Qed.

Lemma release_client_Ret p c w u w' :
  release_client p c w = Ret u w' ->
  exists pl,
    pools w !! p = Some pl /\ w' = released p c pl w.
Proof.
  unfold release_client. destruct (pools w !! p) as [pl|]; [|done].
  intros [= <- <-]. eauto.
Qed.

Lemma client_set_Ret c k v w u w' :
  client_set env c k v w = Ret u w' ->
  fault env (n_op w) = false /\ w' = written env c k v w.
Proof.
  unfold client_set, store_op. destruct (fault env (n_op w)); [done|].
  intros [= <- <-]. done.
Qed.

Lemma client_delete_Ret c k w u w' :
  client_delete env c k w = Ret u w' ->
  fault env (n_op w) = false /\ w' = deleted env c k w.
Proof.
  unfold client_delete, store_op. destruct (fault env (n_op w)); [done|].
  intros [= <- <-]. done.
Qed.

Lemma client_set_run c k v w :
  fault env (n_op w) = false ->
  client_set env c k v w = Ret () (written env c k v w).
Proof. intros Hf. unfold client_set, store_op. by rewrite Hf. Qed.

Lemma client_delete_run c k w :
  fault env (n_op w) = false ->
  client_delete env c k w = Ret () (deleted env c k w).
Proof. intros Hf. unfold client_delete, store_op. by rewrite Hf. Qed.

Lemma release_client_run p c pl w :
  pools w !! p = Some pl -> release_client p c w = Ret () (released p c pl w).
Proof. intros Hp. unfold release_client. by rewrite Hp. Qed.

Lemma store_op_fails {A} (f : gmap addr string -> A * gmap addr string * Event) w :
  fault env (n_op w) = true ->
  store_op env f w
  = Raise StoreOperationError (set_stores (interfere env (n_op w) (stores w)) (next_op w)).
Proof. intros Hf. unfold store_op. by rewrite Hf. Qed.

Lemma hand_out_capacity pl c pl' :
  hand_out pl = Some (c, pl') ->
  capacity pl = S (capacity pl') /\ connargs pl' = connargs pl.
Proof.
  unfold hand_out, capacity. destruct pl as [args [|c0 rest] n lim]; simpl.
  - destruct (Nat.ltb_spec n lim); [|done]. intros [= <- <-]; simpl. split; [lia|done].
  - intros [= <- <-]; simpl. done.
Qed.

Lemma give_back_capacity pl c :
  capacity (give_back pl c) = S (capacity pl).
Proof. unfold give_back, capacity; simpl. rewrite length_app; simpl. lia. Qed.

(** ** The poll loop *)

Lemma poll_S fuel c key w :
  poll env (S fuel) c key w =
  if fault env (n_op w)
  then Raise StoreOperationError
             (set_stores (interfere env (n_op w) (stores w)) (next_op w))
  else if truthy (seen env c key w) then Ret () (after_get env c key w)
       else poll env fuel c key (miss env c key w).
Proof.
  simpl. rewrite bind_run. unfold client_get, store_op.
  destruct (fault env (n_op w)); [done|]. simpl.
  fold (seen env c key w).
  destruct (truthy (seen env c key w)); done.
Qed.

Lemma at_read_S c key w i :
  at_read env c key w (S i) = at_read env c key (miss env c key w) i.
Proof. unfold at_read. apply Nat.iter_succ_r. Qed.

Lemma appears_at_S c key w n :
  appears_at env c key w (S n) <->
  read_misses env c key w 0 /\ appears_at env c key (miss env c key w) n.
Proof.
  unfold appears_at, read_misses, read_hits. split.
  - intros [Hm Hh]. split; [apply Hm; lia|]. split.
    + intros i Hi. rewrite <- at_read_S. apply Hm. lia.
    + rewrite <- at_read_S. done.
  - intros [H0 [Hm Hh]]. split.
    + intros [|i] Hi; [done|]. rewrite at_read_S. apply Hm. lia.
    + rewrite at_read_S. done.
Qed.

Lemma poll_hit fuel : forall c key w n,
  appears_at env c key w n -> n < fuel ->
  poll env fuel c key w = Ret () (after_get env c key (at_read env c key w n)).
Proof.
  induction fuel as [|fuel IH]; intros c key w n Ha Hn; [lia|].
  rewrite poll_S. destruct n as [|n].
  - destruct Ha as [_ [Hf Ht]]. simpl in Hf, Ht. rewrite Hf, Ht. done.
  - apply appears_at_S in Ha. destruct Ha as [[Hf Ht] Ha]. simpl in Hf, Ht.
    rewrite Hf, Ht. rewrite at_read_S. apply IH; [done|lia].
Qed.

Lemma poll_Ret fuel : forall c key w u w',
  poll env fuel c key w = Ret u w' ->
  exists n, n < fuel /\ appears_at env c key w n /\
            w' = after_get env c key (at_read env c key w n).
Proof.
  induction fuel as [|fuel IH]; intros c key w u w' H; [done|].
  rewrite poll_S in H.
  destruct (fault env (n_op w)) eqn:Hf; [done|].
  destruct (truthy (seen env c key w)) eqn:Ht.
  - injection H as <- <-. exists 0. split; [lia|]. split; [|done].
    split; [intros; lia|]. split; done.
  - apply IH in H. destruct H as (n & Hn & Ha & ->).
    exists (S n). split; [lia|]. split.
    + apply appears_at_S. split; [split; done|done].
    + rewrite at_read_S. done.
Qed.

Lemma poll_never fuel : forall c key w,
  (forall i, i < fuel -> read_misses env c key w i) ->
  poll env fuel c key w = Stall StillPolling (at_read env c key w fuel).
Proof.
  induction fuel as [|fuel IH]; intros c key w Hm; [done|].
  rewrite poll_S. destruct (Hm 0) as [Hf Ht]; [lia|]. simpl in Hf, Ht.
  rewrite Hf, Ht, at_read_S. apply IH.
  intros i Hi. unfold read_misses. rewrite <- !at_read_S. apply Hm. lia.
Qed.

(** The three ways a run of the loop can end within its fuel. *)
Lemma poll_cases fuel : forall c key w,
  (exists w', poll env fuel c key w = Ret () w') \/
  (exists w', poll env fuel c key w = Raise StoreOperationError w') \/
  (poll env fuel c key w = Stall StillPolling (at_read env c key w fuel) /\
   forall i, i < fuel -> read_misses env c key w i).
Proof.
  induction fuel as [|fuel IH]; intros c key w.
  - right. right. split; [done|]. intros i Hi. lia.
  - rewrite poll_S. destruct (fault env (n_op w)) eqn:Hf; [right; left; eauto|].
    destruct (truthy (seen env c key w)) eqn:Ht; [left; eauto|].
    destruct (IH c key (miss env c key w)) as [H|[H|[H Hm]]]; [by left|by right; left|].
    right. right. rewrite at_read_S. split; [done|].
    intros [|i] Hi; [by split|]. unfold read_misses. rewrite !at_read_S.
    apply Hm. lia.
Qed.

End Primitives.

(** ** What a successful measurement went through *)

Section Measurement.

Variable env : Env.

(** The poll loop touches nothing but the operation counter, the
    stores (through the outside world only) and the history. *)
Lemma at_read_frame c key w i :
  let w' := at_read env c key w i in
  n_uuid w' = n_uuid w /\ n_time w' = n_time w /\ n_op w' = n_op w + i /\
  pools w' = pools w /\ sink w' = sink w /\ log w' = log w.
Proof.
  induction i as [|i IH]; simpl.
  - repeat split; lia.
  - unfold at_read in *. simpl. destruct IH as (-> & -> & -> & -> & -> & ->).
    repeat split; lia.
Qed.

Lemma at_read_trace c key w n :
  (forall i, i < n -> read_misses env c key w i) ->
  exists vs, length vs = n /\ Forall (fun v => truthy v = false) vs /\
             trace (at_read env c key w n) = trace w ++ miss_events c key vs.
Proof.
  induction n as [|n IH]; intros Hm.
  - exists []. split; [done|]. split; [constructor|]. simpl. by rewrite app_nil_r.
  - destruct IH as (vs & Hl & Hf & Ht); [intros; apply Hm; lia|].
    exists (vs ++ [seen env c key (at_read env c key w n)]).
    split; [rewrite length_app; simpl; lia|]. split.
    + apply Forall_app. split; [done|]. constructor; [|constructor].
      apply (Hm n). lia.
    + unfold at_read in *. simpl. rewrite Ht. unfold miss_events.
      rewrite bind_app. simpl. rewrite <- !app_assoc. done.
Qed.

Lemma get_client_twice sp dp w c1 w1 c2 w2 :
  get_client env sp w = Ret c1 w1 -> get_client env dp w1 = Ret c2 w2 ->
  exists pl1 pl1' pl2 pl2',
    pools w !! sp = Some pl1 /\ hand_out pl1 = Some (c1, pl1') /\
    pools (acquired sp c1 pl1' w) !! dp = Some pl2 /\
    hand_out pl2 = Some (c2, pl2') /\
    w1 = acquired sp c1 pl1' w /\ w2 = acquired dp c2 pl2' w1.
Proof.
  intros H1 H2.
  apply get_client_Ret in H1 as (pl1 & pl1' & Hp1 & Ho1 & _ & ->).
  apply get_client_Ret in H2 as (pl2 & pl2' & Hp2 & Ho2 & _ & ->).
  eauto 12.
Qed.

Lemma measure_Ret fuel sp dp w lags w' :
  _measure_lags env fuel sp dp w = Ret lags w' ->
  exists c1 c2 w1 w2 n,
    get_client env sp w = Ret c1 w1 /\ get_client env dp w1 = Ret c2 w2 /\
    measured env fuel sp dp w lags w' c1 c2 n.
Proof.
  unfold _measure_lags. intros H.
  run_inv H. rename Hrun into Hg1. rename a into c1. rename w0 into w1.
  run_inv H. rename Hrun into Hg2. rename a into c2. rename w0 into w2.
  destruct (get_client_twice _ _ _ _ _ _ _ Hg1 Hg2)
    as (pl1 & pl1' & pl2 & pl2' & Hp1 & Ho1 & Hp2 & Ho2 & E1 & E2).
  run_inv H. rewrite gen_key_run in Hrun. injection Hrun as <- <-.
  run_inv H. apply client_set_Ret in Hrun as (_ & ->).
  run_inv H. rewrite time_run in Hrun. injection Hrun as <- <-.
  run_inv H. apply poll_Ret in Hrun as (n & Hn & Ha & ->).
  run_inv H. rewrite time_run in Hrun. injection Hrun as <- <-.
  run_inv H. apply client_delete_Ret in Hrun as (_ & ->).
  run_inv H. apply release_client_Ret in Hrun as (pl3 & Hp3 & ->).
  run_inv H. apply release_client_Ret in Hrun as (pl4 & Hp4 & ->).
  injection H as <- <-.
  exists c1, c2, w1, w2, n. split; [done|]. split; [done|].
  exists pl1, pl1', pl2, pl2', pl3, pl4.
  assert (Huu : n_uuid w2 = n_uuid w) by (subst w1 w2; reflexivity).
  assert (Htt : n_time w2 = n_time w) by (subst w1 w2; reflexivity).
  rewrite Huu, Htt in *.
  set (key := marker_key (tokens env (n_uuid w))) in *.
  set (w5 := timed (clock env (n_time w)) _) in *.
  assert (Ht1 : n_time (at_read env c2 key w5 n) = S (n_time w)).
  { pose proof (at_read_frame c2 key w5 n) as (_ & Ht & _). simpl in Ht.
    rewrite Ht. subst w5 w1 w2. reflexivity. }
  rewrite Ht1 in *.
  cbv zeta. fold key. unfold stage_written, stage_cleaned. fold key.
  subst w1 w2. fold w5.
  do 5 (split; [done|]). split; [exact Ha|].
  do 2 (split; [done|]). split; done.
Qed.

Lemma measured_trace fuel sp dp w lags w' c1 c2 n :
  measured env fuel sp dp w lags w' c1 c2 n ->
  exists vs v,
    length vs = n /\
    Forall (fun v => truthy v = false) vs /\ truthy v = true /\
    trace w' = trace w ++
      call_events sp dp c1 c2 (tokens env (n_uuid w)) (clock env (n_time w))
                  (clock env (S (n_time w))) vs v.
Proof.
  intros (pl1 & pl1' & pl2 & pl2' & pl3 & pl4 & M). cbv zeta in M.
  destruct M as (Hp1 & Ho1 & Hp2 & Ho2 & Hn & Ha & Hp3 & Hp4 & -> & Hl).
  set (key := marker_key (tokens env (n_uuid w))) in *.
  set (w5 := stage_written env sp dp c1 c2 pl1' pl2' w) in *.
  destruct Ha as [Hm [_ Hh]].
  destruct (at_read_trace c2 key w5 n Hm) as (vs & Hlen & Hfalsy & Ht).
  exists vs, (seen env c2 key (at_read env c2 key w5 n)).
  repeat split; try done.
  unfold call_events. fold key. simpl. rewrite Ht. simpl.
  rewrite <- !app_assoc. simpl. done.
Qed.

Lemma four_updates_capacity (P0 : list Pool) sp dp c1 c2 pl1 pl1' pl2 pl2' pl3 pl4 :
  P0 !! sp = Some pl1 -> hand_out pl1 = Some (c1, pl1') ->
  <[sp := pl1']> P0 !! dp = Some pl2 -> hand_out pl2 = Some (c2, pl2') ->
  <[dp := pl2']> (<[sp := pl1']> P0) !! sp = Some pl3 ->
  <[sp := give_back pl3 c1]> (<[dp := pl2']> (<[sp := pl1']> P0)) !! dp = Some pl4 ->
  forall q,
    capacity <$> (<[dp := give_back pl4 c2]>
                    (<[sp := give_back pl3 c1]>
                       (<[dp := pl2']> (<[sp := pl1']> P0))) !! q)
    = capacity <$> (P0 !! q).
Proof.
  intros Hp1 Ho1 Hp2 Ho2 Hp3 Hp4 q.
  pose proof (lookup_lt_Some _ _ _ Hp1) as Hlt.
  apply hand_out_capacity in Ho1 as [Hc1 _].
  apply hand_out_capacity in Ho2 as [Hc2 _].
  destruct (decide (sp = dp)) as [<-|Hne].
  - rewrite list_lookup_insert_eq in Hp2 by done. injection Hp2 as <-.
    rewrite list_lookup_insert_eq in Hp3 by (rewrite length_insert; done).
    injection Hp3 as <-.
    rewrite list_lookup_insert_eq in Hp4 by (rewrite !length_insert; done).
    injection Hp4 as <-.
    destruct (decide (q = sp)) as [->|Hq].
    + rewrite list_lookup_insert_eq by (rewrite !length_insert; done).
      rewrite Hp1. simpl. rewrite !give_back_capacity. congruence.
    + rewrite !list_lookup_insert_ne by done. done.
  - rewrite list_lookup_insert_ne in Hp2 by done.
    pose proof (lookup_lt_Some _ _ _ Hp2) as Hlt2.
    rewrite list_lookup_insert_ne in Hp3 by done.
    rewrite list_lookup_insert_eq in Hp3 by done. injection Hp3 as <-.
    rewrite list_lookup_insert_ne in Hp4 by done.
    rewrite list_lookup_insert_eq in Hp4 by (rewrite length_insert; done).
    injection Hp4 as <-.
    destruct (decide (q = dp)) as [->|Hq].
    + rewrite list_lookup_insert_eq by (rewrite !length_insert; done).
      rewrite Hp2. simpl. rewrite give_back_capacity. congruence.
    + rewrite list_lookup_insert_ne by done.
      destruct (decide (q = sp)) as [->|Hq'].
      * rewrite list_lookup_insert_eq by (rewrite !length_insert; done).
        rewrite Hp1. simpl. rewrite give_back_capacity. congruence.
      * rewrite !list_lookup_insert_ne by done. done.
Qed.

Lemma measured_pools fuel sp dp w lags w' c1 c2 n :
  measured env fuel sp dp w lags w' c1 c2 n ->
  forall q, capacity_of w' q = capacity_of w q.
Proof.
  intros (pl1 & pl1' & pl2 & pl2' & pl3 & pl4 & M) q. cbv zeta in M.
  destruct M as (Hp1 & Ho1 & Hp2 & Ho2 & Hn & Ha & Hp3 & Hp4 & -> & Hl).
  unfold capacity_of.
  set (key := marker_key (tokens env (n_uuid w))) in *.
  set (w5 := stage_written env sp dp c1 c2 pl1' pl2' w) in *.
  pose proof (at_read_frame c2 key w5 n) as (_ & _ & _ & Hpools & _).
  simpl in Hp2, Hp3, Hp4, Hpools |- *.
  rewrite Hpools in Hp3, Hp4 |- *. simpl in Hp3, Hp4 |- *.
  eapply four_updates_capacity; eauto.
Qed.

Lemma measured_source_store fuel sp dp w lags w' c1 c2 n :
  measured env fuel sp dp w lags w' c1 c2 n ->
  stores w' !! (site_of c1, marker_key (tokens env (n_uuid w))) = None.
Proof.
  intros (pl1 & pl1' & pl2 & pl2' & pl3 & pl4 & M). cbv zeta in M.
  destruct M as (Hp1 & Ho1 & Hp2 & Ho2 & Hn & Ha & Hp3 & Hp4 & -> & Hl).
  simpl. apply lookup_delete_eq.
Qed.

End Measurement.

(** ** Resource balance, marker life cycle, destination frame *)

Section Claims_measure.

Variable env : Env.

Lemma miss_events_no_pool c key vs :
  filter (fun e => is_pool_event e = true) (miss_events c key vs) = [].
Proof.
  induction vs as [|v vs IH]; [done|].
  unfold miss_events in *. simpl. rewrite !filter_cons. simpl. done.
Qed.

Lemma miss_events_no_set c key vs :
  filter (fun e => is_set e = true) (miss_events c key vs) = [].
Proof.
  induction vs as [|v vs IH]; [done|].
  unfold miss_events in *. simpl. rewrite !filter_cons. simpl. done.
Qed.

(** C1 (amended): on every normal return of [_measure_lags], the pool
    events of the call are exactly two acquisitions followed by the
    release of each handle to the pool it came from, and every pool can
    hand out as many handles as before the call. *)
Theorem measure_lags_releases_on_return fuel sp dp w lags w' :
  _measure_lags env fuel sp dp w = Ret lags w' ->
  exists c1 c2 evs,
    trace w' = trace w ++ evs /\
    filter (fun e => is_pool_event e = true) evs =
      [EvAcquire sp c1; EvAcquire dp c2; EvRelease sp c1; EvRelease dp c2] /\
    forall p, capacity_of w' p = capacity_of w p.
Proof.
  intros H. apply measure_Ret in H as (c1 & c2 & w1 & w2 & n & _ & _ & M).
  destruct (measured_trace env _ _ _ _ _ _ _ _ _ M) as (vs & v & _ & _ & _ & Ht).
  exists c1, c2. eexists. split; [exact Ht|]. split.
  - unfold call_events. rewrite !filter_app, miss_events_no_pool.
    rewrite !filter_cons, !filter_nil. simpl. done.
  - eapply measured_pools. exact M.
Qed.

(** C2: a call of [_measure_lags] that returns has set the marker key
    once, on the source client and with the key as its value, has then
    read that key on the destination client until a truthy value came
    back, and has then deleted it on the source client before releasing
    the clients; when it returns the key is absent from the source
    store. *)
Theorem measure_lags_marker_life_cycle fuel sp dp w lags w' :
  _measure_lags env fuel sp dp w = Ret lags w' ->
  exists c1 c2 vs v evs,
    let h := tokens env (n_uuid w) in
    evs = call_events sp dp c1 c2 h (clock env (n_time w))
                      (clock env (S (n_time w))) vs v /\
    trace w' = trace w ++ evs /\
    filter (fun e => is_set e = true) evs = [EvSet c1 (marker_key h) (marker_key h)] /\
    Forall (fun v => truthy v = false) vs /\ truthy v = true /\
    stores w' !! (site_of c1, marker_key h) = None.
Proof.
  intros H. apply measure_Ret in H as (c1 & c2 & w1 & w2 & n & _ & _ & M).
  destruct (measured_trace env _ _ _ _ _ _ _ _ _ M) as (vs & v & _ & Hf & Hv & Ht).
  exists c1, c2, vs, v. eexists. cbv zeta. split; [reflexivity|].
  split; [exact Ht|]. split.
  - unfold call_events. rewrite !filter_app, miss_events_no_set.
    rewrite !filter_cons, !filter_nil. simpl. done.
  - split; [done|]. split; [done|]. eapply measured_source_store. exact M.
Qed.

End Claims_measure.

(** C1 (as stated) fails: when the [set] on the source raises, the two
    handles acquired before it are never released, and the source pool
    is left one handle short. *)
Lemma measure_lags_leaks_on_store_error :
  ~ balanced_on_exit (Scenario.env_with [2]) 5 0 1 Scenario.ready.
Proof.
  unfold balanced_on_exit. intros H.
  assert (E : _measure_lags (Scenario.env_with [2]) 5 0 1 Scenario.ready
              = Raise StoreOperationError
                  (world_of (_measure_lags (Scenario.env_with [2]) 5 0 1 Scenario.ready))).
  { vm_compute. reflexivity. }
  rewrite E in H. specialize (H 0). vm_compute in H. discriminate H.
Qed.

(** A healthy measurement on the concrete deployment gives back both handles. *)
Lemma measure_lags_releases_on_return_witness :
  exists c1 c2 evs,
    trace (world_of (_measure_lags Scenario.healthy 5 0 1 Scenario.ready))
    = trace Scenario.ready ++ evs /\
    filter (fun e => is_pool_event e = true) evs =
      [EvAcquire 0 c1; EvAcquire 1 c2; EvRelease 0 c1; EvRelease 1 c2] /\
    forall p, capacity_of (world_of (_measure_lags Scenario.healthy 5 0 1 Scenario.ready)) p
              = capacity_of Scenario.ready p.
Proof.
  eapply (measure_lags_releases_on_return Scenario.healthy 5 0 1 Scenario.ready
            {[ "xdcr_lag" := PyFloat.of_int 1000 ]}).
  vm_compute. reflexivity.
Defined.

(** ** The poll loop: termination and truthiness *)

Section Claims_poll.

Variable env : Env.

Lemma falsy_cases (v : option string) :
  truthy v = false <-> v = None \/ v = Some "".
Proof.
  destruct v as [s|]; simpl.
  - rewrite negb_false_iff, String.eqb_eq. split.
    + intros ->. by right.
    + intros [?|[= ->]]; done.
  - split; [by left|done].
Qed.

Lemma truthy_cases (v : option string) :
  truthy v = true <-> exists s, v = Some s /\ s <> "".
Proof.
  destruct v as [s|]; simpl.
  - rewrite negb_true_iff, String.eqb_neq. split.
    + intros Hs. eauto.
    + intros (s' & [= ->] & Hs). done.
  - split; [done|]. intros (s & ? & _). done.
Qed.

Lemma at_read_n_op c key w i : n_op (at_read env c key w i) = n_op w + i.
Proof. apply at_read_frame. Qed.

(** Reading does not write: the stores the loop sees are the initial
    ones as changed by the outside world alone. *)
Lemma at_read_quiet c key w (a : addr) :
  (forall n s, interfere env n s !! a = s !! a) ->
  forall i, stores (at_read env c key w i) !! a = stores w !! a.
Proof.
  intros Hq i. induction i as [|i IH]; [done|].
  unfold at_read in *. simpl. rewrite Hq. exact IH.
Qed.

End Claims_poll.

Lemma miss_events_reads_only c c' key vs :
  Forall (fun e => is_store_event_of c' e = true -> is_get e = true)
         (miss_events c key vs).
Proof.
  induction vs as [|v vs IH]; [constructor|].
  unfold miss_events in *. simpl. repeat constructor; done.
Qed.

(** The marker life cycle on the concrete deployment: one miss, then
    the hit. *)
Lemma measure_lags_marker_life_cycle_witness :
  exists c1 c2 vs v evs,
    evs = call_events 0 1 c1 c2 "a" (PyFloat.of_int 1700000000)
                      (PyFloat.of_int 1700000001) vs v /\
    trace (world_of (_measure_lags Scenario.healthy 5 0 1 Scenario.ready))
    = trace Scenario.ready ++ evs /\
    filter (fun e => is_set e = true) evs = [EvSet c1 "xdcr_track_a" "xdcr_track_a"] /\
    Forall (fun v => truthy v = false) vs /\ truthy v = true /\
    stores (world_of (_measure_lags Scenario.healthy 5 0 1 Scenario.ready))
      !! (site_of c1, "xdcr_track_a") = None.
Proof.
  apply (measure_lags_marker_life_cycle Scenario.healthy 5 0 1 Scenario.ready
           {[ "xdcr_lag" := PyFloat.of_int 1000 ]}).
  vm_compute. reflexivity.
Defined.

(** C9: a call of [_measure_lags] that returns has issued nothing but
    reads against the destination store: the only deletion (and the only
    write) goes through the source client.  So, with source and
    destination being different stores and an outside world that does
    not take the replicated marker away, the marker is still at the
    destination, with the truthy value the loop saw, when the call
    returns. *)
Theorem measure_lags_leaves_destination env fuel sp dp w lags w' c1 w1 c2 w2 :
  get_client env sp w = Ret c1 w1 ->
  get_client env dp w1 = Ret c2 w2 ->
  _measure_lags env fuel sp dp w = Ret lags w' ->
  site_of c1 <> site_of c2 ->
  (forall n s x, s !! (site_of c2, marker_key (tokens env (n_uuid w))) = Some x ->
     interfere env n s !! (site_of c2, marker_key (tokens env (n_uuid w))) = Some x) ->
  exists evs x,
    trace w' = trace w ++ evs /\
    Forall (fun e => is_store_event_of c2 e = true -> is_get e = true) evs /\
    filter (fun e => is_delete e = true) evs
      = [EvDelete c1 (marker_key (tokens env (n_uuid w)))] /\
    x <> "" /\
    stores w' !! (site_of c2, marker_key (tokens env (n_uuid w))) = Some x.
Proof.
  intros Hg1 Hg2 H Hsites Hkeep.
  apply measure_Ret in H as (c1' & c2' & w1' & w2' & n & Hg1' & Hg2' & M).
  rewrite Hg1 in Hg1'. injection Hg1' as <- <-.
  rewrite Hg2 in Hg2'. injection Hg2' as <- <-.
  destruct (measured_trace env _ _ _ _ _ _ _ _ _ M) as (vs & v & _ & _ & _ & Ht).
  destruct M as (pl1 & pl1' & pl2 & pl2' & pl3 & pl4 & M). cbv zeta in M.
  destruct M as (_ & _ & _ & _ & _ & Ha & _ & _ & -> & _).
  set (key := marker_key (tokens env (n_uuid w))) in *.
  set (w5 := stage_written env sp dp c1 c2 pl1' pl2' w) in *.
  destruct Ha as [_ [_ Hhit]].
  apply truthy_cases in Hhit as (x & Hx & Hne).
  eexists. exists x. split; [exact Ht|]. split; [|split; [|split; [done|]]].
  - unfold call_events. fold key. apply Forall_app. split.
    + repeat constructor; try done. simpl. intros Hd.
      apply bool_decide_eq_true in Hd. done.
    + apply Forall_app. split; [apply miss_events_reads_only|].
      repeat constructor; try done. simpl. intros Hd.
      apply bool_decide_eq_true in Hd. done.
  - unfold call_events. fold key. rewrite !filter_app.
    assert (Hmiss : filter (fun e => is_delete e = true)
                           (miss_events c2 key vs) = []).
    { clear. induction vs as [|v0 vs IH]; [done|].
      unfold miss_events in *. simpl. rewrite !filter_cons. simpl. exact IH. }
    rewrite Hmiss. rewrite !filter_cons, !filter_nil. simpl. done.
  - simpl. rewrite lookup_delete_ne by congruence.
    apply Hkeep. exact Hx.
Qed.

(** On a deployment where the marker arrives at the destination just before
    operation 4, it is still there when the call returns. *)
Lemma measure_lags_leaves_destination_witness :
  exists evs x,
    trace (world_of (_measure_lags
             (Scenario.arriving 4 (("dst.example", "beer"), "xdcr_track_a") "xdcr_track_a")
             5 0 1 Scenario.ready))
    = trace Scenario.ready ++ evs /\
    Forall (fun e => is_store_event_of (mkClient "dst.example" "beer" 0) e = true ->
                     is_get e = true) evs /\
    filter (fun e => is_delete e = true) evs
      = [EvDelete (mkClient "src.example" "beer" 0) "xdcr_track_a"] /\
    x <> "" /\
    stores (world_of (_measure_lags
              (Scenario.arriving 4 (("dst.example", "beer"), "xdcr_track_a") "xdcr_track_a")
              5 0 1 Scenario.ready))
      !! (("dst.example", "beer"), "xdcr_track_a") = Some x.
Proof.
  apply (measure_lags_leaves_destination
           (Scenario.arriving 4 (("dst.example", "beer"), "xdcr_track_a") "xdcr_track_a")
           5 0 1 Scenario.ready {[ "xdcr_lag" := PyFloat.of_int 1000 ]}
           _ (mkClient "src.example" "beer" 0)
           (world_of (get_client
              (Scenario.arriving 4 (("dst.example", "beer"), "xdcr_track_a") "xdcr_track_a")
              0 Scenario.ready))
           (mkClient "dst.example" "beer" 0)
           (world_of (get_client
              (Scenario.arriving 4 (("dst.example", "beer"), "xdcr_track_a") "xdcr_track_a")
              1 (world_of (get_client
                   (Scenario.arriving 4 (("dst.example", "beer"), "xdcr_track_a")
                                      "xdcr_track_a")
                   0 Scenario.ready))))).
  - vm_compute. reflexivity.
  - vm_compute. reflexivity.
  - vm_compute. reflexivity.
  - vm_compute. discriminate.
  - intros n s x Hx.
    change (s !! (("dst.example", "beer", "xdcr_track_a") : addr) = Some x) in Hx.
    change ((if Nat.eqb n 4
             then match s !! (("dst.example", "beer", "xdcr_track_a") : addr) with
                  | Some _ => s
                  | None => <[("dst.example", "beer", "xdcr_track_a") := "xdcr_track_a"]> s
                  end
             else s) !! (("dst.example", "beer", "xdcr_track_a") : addr) = Some x).
    destruct (Nat.eqb n 4); [|exact Hx]. rewrite Hx. exact Hx.
Defined.

(** *** The loop within a call *)

Section Call.

Variable env : Env.

(** The loop does not read the clock. *)
Lemma poll_time fuel : forall c key w,
  n_time (world_of (poll env fuel c key w)) = n_time w.
Proof.
  induction fuel as [|fuel IH]; intros c key w; [done|].
  rewrite poll_S. destruct (fault env (n_op w)); [done|].
  destruct (truthy (seen env c key w)); [done|]. by rewrite IH.
Qed.

(** A read that raises after [n] misses ends the loop by the exception. *)
Lemma poll_fails fuel : forall c key w n,
  (forall i, i < n -> read_misses env c key w i) ->
  fault env (n_op (at_read env c key w n)) = true -> n < fuel ->
  exists w', poll env fuel c key w = Raise StoreOperationError w' /\
             trace w' = trace (at_read env c key w n).
Proof.
  induction fuel as [|fuel IH]; intros c key w n Hm Hf Hn; [lia|].
  rewrite poll_S. destruct n as [|n].
  - simpl in Hf. rewrite Hf. eexists. split; [reflexivity|done].
  - destruct (Hm 0) as [Hf0 Ht0]; [lia|]. simpl in Hf0, Ht0. rewrite Hf0, Ht0.
    rewrite at_read_S in Hf |- *. apply IH; [|done|lia].
    intros i Hi. unfold read_misses. rewrite <- !at_read_S. apply Hm. lia.
Qed.

Variables (sp dp : nat) (w : World) (c1 c2 : Client) (w1 w2 : World).
Hypothesis Hg1 : get_client env sp w = Ret c1 w1.
Hypothesis Hg2 : get_client env dp w1 = Ret c2 w2.

Abbreviation the_key := (marker_key (tokens env (n_uuid w2))).
Abbreviation start := (loop_start env c1 w2).

Lemma call_facts :
  n_uuid w2 = n_uuid w /\ n_time w2 = n_time w /\ n_op w2 = n_op w + 2 /\
  trace w2 = trace w ++ [EvAcquire sp c1; EvAcquire dp c2] /\
  length (pools w2) = length (pools w) /\
  sp < length (pools w) /\ dp < length (pools w).
Proof.
  destruct (get_client_twice env _ _ _ _ _ _ _ Hg1 Hg2)
    as (pl1 & pl1' & pl2 & pl2' & Hp1 & Ho1 & Hp2 & Ho2 & E1 & E2).
  assert (Hsp : sp < length (pools w)) by (by eapply lookup_lt_Some).
  assert (Hdp : dp < length (pools w)).
  { apply lookup_lt_Some in Hp2. simpl in Hp2. by rewrite length_insert in Hp2. }
  subst w1 w2. simpl. rewrite !length_insert, <- app_assoc.
  repeat split; try done; lia.
Qed.

Lemma start_facts :
  n_time start = S (n_time w) /\ n_op start = n_op w + 3 /\
  pools start = pools w2 /\
  trace start = trace w ++ entry_events sp dp c1 c2 (tokens env (n_uuid w2))
                                        (clock env (n_time w2)).
Proof.
  destruct call_facts as (_ & Ht & Ho & Htr & _).
  unfold loop_start, entry_events. simpl. rewrite Ht, Ho, Htr, <- !app_assoc.
  repeat split; try done; lia.
Qed.

(** The world of the call after [n] misses. *)
Lemma read_facts n :
  n_time (at_read env c2 the_key start n) = S (n_time w) /\
  n_op (at_read env c2 the_key start n) = n_op start + n /\
  pools (at_read env c2 the_key start n) = pools w2.
Proof.
  pose proof (at_read_frame env c2 the_key start n) as (_ & Ht & Ho & Hp & _).
  destruct start_facts as (Ht5 & _ & Hp5 & _).
  simpl in Ht, Ho, Hp. rewrite Ht, Ho, Hp. done.
Qed.

Hypothesis Hset : fault env (n_op w2) = false.

(** The call, from the start of its loop on. *)
Lemma call_run fuel :
  _measure_lags env fuel sp dp w =
  (poll env fuel c2 the_key;;
   t1 ← time env;
   client_delete env c1 the_key;;
   release_client sp c1;;
   release_client dp c2;;
   mret {[ "xdcr_lag" := PyFloat.mul (PyFloat.sub t1 (clock env (n_time w2)))
                                     PyFloat.thousand ]}) start.
Proof.
  unfold _measure_lags.
  rewrite bind_run, Hg1, bind_run, Hg2, bind_run, gen_key_run.
  rewrite bind_run, (client_set_run env c1 _ _ (keyed _ w2) Hset).
  rewrite bind_run, time_run. reflexivity.
Qed.

Lemma call_stall fuel s w' :
  poll env fuel c2 the_key start = Stall s w' ->
  _measure_lags env fuel sp dp w = Stall s w'.
Proof. intros H. by rewrite call_run, bind_run, H. Qed.

Lemma call_raise fuel e w' :
  poll env fuel c2 the_key start = Raise e w' ->
  _measure_lags env fuel sp dp w = Raise e w'.
Proof. intros H. by rewrite call_run, bind_run, H. Qed.

(** Once the marker has appeared the call goes on to [t1] and the
    [delete]; if that does not fail, both releases succeed and the call
    returns. *)
Lemma call_hit fuel n :
  appears_at env c2 the_key start n -> n < fuel ->
  exists rest,
    left_loop w (world_of (_measure_lags env fuel sp dp w)) /\
    trace (world_of (_measure_lags env fuel sp dp w))
    = trace (at_read env c2 the_key start n)
      ++ EvGet c2 the_key (seen env c2 the_key (at_read env c2 the_key start n))
      :: EvTime (clock env (S (n_time w2))) :: rest /\
    if fault env (n_op start + S n)
    then rest = [] /\
         exists w', _measure_lags env fuel sp dp w = Raise StoreOperationError w'
    else rest = [EvDelete c1 the_key; EvRelease sp c1; EvRelease dp c2] /\
         exists lags w', _measure_lags env fuel sp dp w = Ret lags w'.
Proof.
  intros Ha Hn.
  destruct call_facts as (_ & Ht2 & _ & _ & Hlen & Hsp & Hdp).
  destruct (read_facts n) as (Htn & Hon & Hpn).
  rewrite call_run, bind_run, (poll_hit env fuel c2 _ _ n Ha Hn).
  set (w6 := after_get env c2 the_key (at_read env c2 the_key start n)).
  assert (Ht6 : n_time w6 = S (n_time w2)).
  { change (n_time (at_read env c2 the_key start n) = S (n_time w2)). congruence. }
  rewrite bind_run, time_run, Ht6.
  set (w7 := timed (clock env (S (n_time w2))) w6).
  assert (Ho7 : n_op w7 = n_op start + S n).
  { change (S (n_op (at_read env c2 the_key start n)) = n_op start + S n). lia. }
  assert (Hp7 : pools w7 = pools w2) by exact Hpn.
  destruct (fault env (n_op start + S n)) eqn:Hf; rewrite <- Ho7 in Hf.
  - rewrite bind_run. unfold client_delete. rewrite (store_op_fails env _ _ Hf).
    exists []. simpl. split; [unfold left_loop; simpl; lia|].
    split; [by rewrite <- app_assoc|]. split; [done|eauto].
  - rewrite bind_run, (client_delete_run env c1 _ w7 Hf).
    set (w8 := deleted env c1 the_key w7).
    assert (Hp8 : pools w8 = pools w2) by exact Hpn.
    destruct (lookup_lt_is_Some_2 (pools w8) sp) as [pl3 Hp3]; [rewrite Hp8; lia|].
    rewrite bind_run, (release_client_run sp c1 pl3 w8 Hp3).
    set (w9 := released sp c1 pl3 w8).
    destruct (lookup_lt_is_Some_2 (pools w9) dp) as [pl4 Hp4].
    { subst w9. cbn [pools released emit set_pools]. rewrite length_insert, Hp8. lia. }
    rewrite bind_run, (release_client_run dp c2 pl4 w9 Hp4).
    eexists. simpl. split; [unfold left_loop; simpl; lia|].
    split; [by rewrite <- !app_assoc|]. split; [done|eauto].
Qed.

(** A call in which the marker appears at read [n] and the [delete]
    does not fail returns, with the history of [n] misses and the hit. *)
Lemma call_returns fuel n :
  appears_at env c2 the_key start n -> n < fuel ->
  fault env (n_op start + S n) = false ->
  exists lags w' vs,
    _measure_lags env fuel sp dp w = Ret lags w' /\
    length vs = n /\ Forall (fun x => truthy x = false) vs /\
    trace w' = trace w ++
               call_events sp dp c1 c2 (tokens env (n_uuid w2)) (clock env (n_time w2))
                           (clock env (S (n_time w2))) vs
                           (seen env c2 the_key (at_read env c2 the_key start n)).
Proof.
  intros Ha Hn Hf.
  destruct (call_hit fuel n Ha Hn) as (rest & _ & Htr & Hif).
  rewrite Hf in Hif. destruct Hif as (-> & lags & w' & H).
  destruct (at_read_trace env c2 the_key start n (proj1 Ha)) as (vs & Hl & Hfalsy & Ht).
  destruct start_facts as (_ & _ & _ & Htr5).
  exists lags, w', vs. split; [done|]. split; [done|]. split; [done|].
  rewrite H in Htr. simpl in Htr. rewrite Htr, Ht, Htr5.
  unfold call_events, entry_events. rewrite <- !app_assoc. done.
Qed.

End Call.

(** In [Scenario.late (k + n) a], from a world whose operation counter
    is [k], the value at [a] appears at read [n] exactly. *)
Lemma late_appears_from k n c key w :
  n_op w = k ->
  appears_at (Scenario.late (k + n) (site_of c, key)) c key w n.
Proof.
  intros Hk.
  assert (Hop : forall i, n_op (at_read (Scenario.late (k + n) (site_of c, key)) c key
                                        w i) = k + i).
  { intros i. rewrite at_read_n_op. lia. }
  split.
  - intros i Hi. split; [done|]. unfold seen. rewrite Hop. simpl.
    destruct (Nat.ltb_spec (k + i) (k + n)); [|lia]. by rewrite lookup_delete_eq.
  - split; [done|]. unfold seen. rewrite Hop. simpl.
    destruct (Nat.ltb_spec (k + n) (k + n)); [lia|]. by rewrite lookup_insert_eq.
Qed.

(** C3: take a call of [_measure_lags] that reaches its loop: both
    clients are obtained and the [set] does not fail; [w5] is the world
    in which the loop starts.  The call gets past the loop, to its
    second clock reading, exactly when some destination read comes back
    with a truthy value, all reads before it having come back falsy;
    and it returns exactly when, in addition, the [delete] does not
    fail.  Up to that read its history is the entry, one pause of
    0.05 s (50 ms) after each miss and nothing else, then the hit and
    [t1].  If every read misses, the call is still polling whatever the
    number of reads followed: it neither returns nor raises, and it
    holds both clients.  Within any number of reads the call has
    returned, or raised a store error, or is still polling after that
    many misses; a read that raises ends the loop and the call without
    the loop having been left by its [break].  The number of misses
    before a return is not bounded: any number occurs in some
    environment. *)
Theorem measure_lags_polls_until_marker_appears env sp dp w c1 w1 c2 w2 :
  get_client env sp w = Ret c1 w1 ->
  get_client env dp w1 = Ret c2 w2 ->
  fault env (n_op w2) = false ->
  let h := tokens env (n_uuid w2) in
  let key := marker_key h in
  let t0 := clock env (n_time w2) in
  let t1 := clock env (S (n_time w2)) in
  let w5 := loop_start env c1 w2 in
  ((exists fuel, left_loop w (world_of (_measure_lags env fuel sp dp w))) <->
   (exists n, appears_at env c2 key w5 n)) /\
  ((exists fuel lags w', _measure_lags env fuel sp dp w = Ret lags w') <->
   (exists n, appears_at env c2 key w5 n /\ fault env (n_op w5 + S n) = false)) /\
  (forall n fuel, appears_at env c2 key w5 n -> n < fuel ->
     exists vs v rest,
       length vs = n /\ Forall (fun x => truthy x = false) vs /\ truthy v = true /\
       trace (world_of (_measure_lags env fuel sp dp w))
       = trace w ++ entry_events sp dp c1 c2 h t0 ++ miss_events c2 key vs
                 ++ EvGet c2 key v :: EvTime t1 :: rest) /\
  ((forall i, read_misses env c2 key w5 i) ->
     forall fuel,
       _measure_lags env fuel sp dp w = Stall StillPolling (at_read env c2 key w5 fuel) /\
       pools (at_read env c2 key w5 fuel) = pools w2 /\
       exists vs,
         length vs = fuel /\
         trace (at_read env c2 key w5 fuel)
         = trace w ++ entry_events sp dp c1 c2 h t0 ++ miss_events c2 key vs) /\
  (forall fuel,
     (exists lags w', _measure_lags env fuel sp dp w = Ret lags w') \/
     (exists w', _measure_lags env fuel sp dp w = Raise StoreOperationError w') \/
     (_measure_lags env fuel sp dp w = Stall StillPolling (at_read env c2 key w5 fuel) /\
      forall i, i < fuel -> read_misses env c2 key w5 i)) /\
  (forall n fuel,
     (forall i, i < n -> read_misses env c2 key w5 i) ->
     fault env (n_op w5 + n) = true -> n < fuel ->
     exists w', _measure_lags env fuel sp dp w = Raise StoreOperationError w' /\
                ~ left_loop w w') /\
  (poll_interval * 1000 == 50)%Q /\
  (forall n, exists env' lags w' vs v,
     _measure_lags env' (S n) 0 1 Scenario.ready = Ret lags w' /\
     length vs = n /\ Forall (fun x => truthy x = false) vs /\ truthy v = true /\
     trace w' = trace Scenario.ready ++
                call_events 0 1 Scenario.src_client Scenario.some_client
                            (tokens env' 0) (clock env' 0) (clock env' 1) vs v).
Proof.
  intros Hg1 Hg2 Hset h key t0 t1 w5.
  pose proof (call_facts env sp dp w c1 c2 w1 w2 Hg1 Hg2) as (_ & Ht2 & _ & _ & _).
  pose proof (start_facts env sp dp w c1 c2 w1 w2 Hg1 Hg2) as (Ht5 & Ho5 & Hp5 & Htr5).
  fold h key t0 w5 in Ht5, Ho5, Hp5, Htr5.
  assert (Hhit := call_hit env sp dp w c1 c2 w1 w2 Hg1 Hg2 Hset).
  fold h key w5 t1 in Hhit.
  assert (Hstall := fun fuel => call_stall env sp dp w c1 c2 w1 w2 Hg1 Hg2 Hset fuel).
  assert (Hraise := fun fuel => call_raise env sp dp w c1 c2 w1 w2 Hg1 Hg2 Hset fuel).
  fold h key w5 in Hstall, Hraise.
  assert (Hcases : forall fuel,
    (exists n, n < fuel /\ appears_at env c2 key w5 n) \/
    (exists w', _measure_lags env fuel sp dp w = Raise StoreOperationError w' /\
                n_time w' = S (n_time w)) \/
    (_measure_lags env fuel sp dp w = Stall StillPolling (at_read env c2 key w5 fuel) /\
     forall i, i < fuel -> read_misses env c2 key w5 i)).
  { intros fuel.
    destruct (poll_cases env fuel c2 key w5) as [[w' H]|[[w' H]|[H Hm]]].
    - left. apply poll_Ret in H as (n & Hn & Ha & _). eauto.
    - right. left. exists w'. split; [by apply Hraise|].
      pose proof (poll_time env fuel c2 key w5) as Hpt. rewrite H in Hpt.
      simpl in Hpt. congruence.
    - right. right. split; [by apply Hstall|done]. }
  split; [|split; [|split; [|split; [|split; [|split; [|split]]]]]].
  - split.
    + intros (fuel & Hl). unfold left_loop in Hl.
      destruct (Hcases fuel) as [(n & _ & Ha)|[(w' & H & Ht)|[H _]]]; [eauto| |].
      * rewrite H in Hl. simpl in Hl. lia.
      * rewrite H in Hl. simpl in Hl.
        pose proof (at_read_frame env c2 key w5 fuel) as (_ & Htf & _).
        simpl in Htf. lia.
    + intros (n & Ha). exists (S n).
      destruct (Hhit (S n) n Ha) as (rest & Hl & _); [lia|done].
  - split.
    + intros (fuel & lags & w' & H).
      destruct (Hcases fuel) as [(n & Hn & Ha)|[(w'' & H' & _)|[H' _]]];
        [|congruence|congruence].
      exists n. split; [done|].
      destruct (Hhit fuel n Ha Hn) as (rest & _ & _ & Hif).
      destruct (fault env (n_op w5 + S n)); [|done].
      destruct Hif as (_ & w'' & H'). congruence.
    + intros (n & Ha & Hf). exists (S n).
      destruct (Hhit (S n) n Ha) as (rest & _ & _ & Hif); [lia|].
      rewrite Hf in Hif. apply Hif.
  - intros n fuel Ha Hn.
    destruct (Hhit fuel n Ha Hn) as (rest & _ & Htr & _).
    destruct (at_read_trace env c2 key w5 n (proj1 Ha)) as (vs & Hl & Hfalsy & Ht).
    exists vs, (seen env c2 key (at_read env c2 key w5 n)), rest.
    split; [done|]. split; [done|]. split; [apply Ha|].
    rewrite Htr, Ht, Htr5, <- !app_assoc. done.
  - intros Hm fuel. split; [|split].
    + apply Hstall. apply poll_never. intros i _. apply Hm.
    + pose proof (at_read_frame env c2 key w5 fuel) as (_ & _ & _ & Hp & _).
      simpl in Hp. congruence.
    + destruct (at_read_trace env c2 key w5 fuel) as (vs & Hl & _ & Ht);
        [intros i _; apply Hm|].
      exists vs. split; [done|]. rewrite Ht, Htr5, <- !app_assoc. done.
  - intros fuel.
    destruct (Hcases fuel) as [(n & Hn & Ha)|[(w' & H & _)|H]];
      [|right; left; eauto|right; right; done].
    destruct (Hhit fuel n Ha Hn) as (rest & _ & _ & Hif).
    destruct (fault env (n_op w5 + S n)); [right; left|left]; apply Hif.
  - intros n fuel Hm Hf Hn.
    destruct (poll_fails env fuel c2 key w5 n Hm) as (w' & H & _); [|done|].
    { rewrite at_read_n_op. done. }
    exists w'. split; [by apply Hraise|].
    pose proof (poll_time env fuel c2 key w5) as Hpt. rewrite H in Hpt.
    simpl in Hpt. unfold left_loop. lia.
  - reflexivity.
  - intros n.
    set (a := (site_of Scenario.some_client, marker_key "a")).
    set (env' := Scenario.late (3 + n) a).
    assert (G1 : get_client env' 0 Scenario.ready
                 = Ret Scenario.src_client
                       (world_of (get_client Scenario.still 0 Scenario.ready)))
      by (vm_compute; reflexivity).
    assert (G2 : get_client env' 1 (world_of (get_client Scenario.still 0 Scenario.ready))
                 = Ret Scenario.some_client (Scenario.both_held Scenario.still))
      by (vm_compute; reflexivity).
    assert (Ha : appears_at env' Scenario.some_client (marker_key "a")
                   (loop_start env' Scenario.src_client
                               (Scenario.both_held Scenario.still)) n).
    { apply (late_appears_from 3 n Scenario.some_client). reflexivity. }
    destruct (call_returns env' 0 1 Scenario.ready _ _ _ _ G1 G2 eq_refl (S n) n Ha)
      as (lags & w' & vs & H & Hl & Hfalsy & Ht); [lia|done|].
    exists env', lags, w', vs. eexists.
    split; [exact H|]. split; [done|]. split; [done|]. split; [apply Ha|].
    exact Ht.
Qed.

(** On the concrete deployment the marker reaches the destination at the
    second read. *)
Lemma measure_lags_polls_until_marker_appears_witness :
  ((exists fuel, left_loop Scenario.ready
                   (world_of (_measure_lags Scenario.healthy fuel 0 1 Scenario.ready))) <->
   (exists n, appears_at Scenario.healthy Scenario.some_client "xdcr_track_a"
                         Scenario.at_loop n)) /\
  ((exists fuel lags w',
      _measure_lags Scenario.healthy fuel 0 1 Scenario.ready = Ret lags w') <->
   (exists n, appears_at Scenario.healthy Scenario.some_client "xdcr_track_a"
                         Scenario.at_loop n /\
              fault Scenario.healthy (n_op Scenario.at_loop + S n) = false)) /\
  (forall n fuel,
     appears_at Scenario.healthy Scenario.some_client "xdcr_track_a" Scenario.at_loop n ->
     n < fuel ->
     exists vs v rest,
       length vs = n /\ Forall (fun x => truthy x = false) vs /\ truthy v = true /\
       trace (world_of (_measure_lags Scenario.healthy fuel 0 1 Scenario.ready))
       = trace Scenario.ready
         ++ entry_events 0 1 Scenario.src_client Scenario.some_client "a"
                         (PyFloat.of_int 1700000000)
         ++ miss_events Scenario.some_client "xdcr_track_a" vs
         ++ EvGet Scenario.some_client "xdcr_track_a" v
            :: EvTime (PyFloat.of_int 1700000001) :: rest) /\
  ((forall i, read_misses Scenario.healthy Scenario.some_client "xdcr_track_a"
                          Scenario.at_loop i) ->
     forall fuel,
       _measure_lags Scenario.healthy fuel 0 1 Scenario.ready
       = Stall StillPolling
           (at_read Scenario.healthy Scenario.some_client "xdcr_track_a"
                    Scenario.at_loop fuel) /\
       pools (at_read Scenario.healthy Scenario.some_client "xdcr_track_a"
                      Scenario.at_loop fuel)
       = pools (Scenario.both_held Scenario.healthy) /\
       exists vs,
         length vs = fuel /\
         trace (at_read Scenario.healthy Scenario.some_client "xdcr_track_a"
                        Scenario.at_loop fuel)
         = trace Scenario.ready
           ++ entry_events 0 1 Scenario.src_client Scenario.some_client "a"
                           (PyFloat.of_int 1700000000)
           ++ miss_events Scenario.some_client "xdcr_track_a" vs) /\
  (forall fuel,
     (exists lags w',
        _measure_lags Scenario.healthy fuel 0 1 Scenario.ready = Ret lags w') \/
     (exists w',
        _measure_lags Scenario.healthy fuel 0 1 Scenario.ready
        = Raise StoreOperationError w') \/
     (_measure_lags Scenario.healthy fuel 0 1 Scenario.ready
      = Stall StillPolling
          (at_read Scenario.healthy Scenario.some_client "xdcr_track_a"
                   Scenario.at_loop fuel) /\
      forall i, i < fuel ->
        read_misses Scenario.healthy Scenario.some_client "xdcr_track_a"
                    Scenario.at_loop i)) /\
  (forall n fuel,
     (forall i, i < n ->
        read_misses Scenario.healthy Scenario.some_client "xdcr_track_a"
                    Scenario.at_loop i) ->
     fault Scenario.healthy (n_op Scenario.at_loop + n) = true ->
     n < fuel ->
     exists w',
       _measure_lags Scenario.healthy fuel 0 1 Scenario.ready
       = Raise StoreOperationError w' /\
       ~ left_loop Scenario.ready w') /\
  (poll_interval * 1000 == 50)%Q /\
  (forall n, exists env' lags w' vs v,
     _measure_lags env' (S n) 0 1 Scenario.ready = Ret lags w' /\
     length vs = n /\ Forall (fun x => truthy x = false) vs /\ truthy v = true /\
     trace w' = trace Scenario.ready ++
                call_events 0 1 Scenario.src_client Scenario.some_client
                            (tokens env' 0) (clock env' 0) (clock env' 1) vs v).
Proof.
  apply (measure_lags_polls_until_marker_appears Scenario.healthy 0 1 Scenario.ready
           Scenario.src_client (world_of (get_client Scenario.healthy 0 Scenario.ready))
           Scenario.some_client (Scenario.both_held Scenario.healthy)).
  - vm_compute. reflexivity.
  - vm_compute. reflexivity.
  - reflexivity.
Defined.

(** C10: a destination that holds the marker with an empty value, and
    keeps it so, is polled like one that does not hold it at all: every
    read is followed by a pause and another read, whatever the fuel, and
    the loop never returns.  From any world, when the loop does return,
    the last value read was a non-empty string. *)
Theorem poll_treats_empty_as_absent env c key w :
  (forall n, fault env n = false) ->
  (forall n s, interfere env n s !! (site_of c, key) = s !! (site_of c, key)) ->
  stores w !! (site_of c, key) = Some "" \/ stores w !! (site_of c, key) = None ->
  (forall fuel, poll env fuel c key w = Stall StillPolling (at_read env c key w fuel)) /\
  (forall fuel, exists vs, length vs = fuel /\
      Forall (fun v => v = None \/ v = Some "") vs /\
      trace (at_read env c key w fuel) = trace w ++ miss_events c key vs) /\
  (forall w0 fuel w', poll env fuel c key w0 = Ret () w' ->
      exists tr s, trace w' = tr ++ [EvGet c key (Some s)] /\ s <> "").
Proof.
  intros Hnf Hq Hv.
  assert (Hm : forall i, read_misses env c key w i).
  { intros i. split; [apply Hnf|]. unfold seen. rewrite Hq.
    rewrite (at_read_quiet env c key w _ Hq). apply falsy_cases. tauto. }
  split; [|split].
  - intros fuel. apply poll_never. intros i _. apply Hm.
  - intros fuel. destruct (at_read_trace env c key w fuel) as (vs & Hl & Hf & Ht).
    + intros i _. apply Hm.
    + exists vs. split; [done|]. split; [|done].
      eapply Forall_impl; [exact Hf|]. intros v. apply falsy_cases.
  - intros w0 fuel w' H. apply poll_Ret in H as (n & _ & [_ [_ Ht]] & ->).
    apply truthy_cases in Ht as (s & Hs & Hne).
    exists (trace (at_read env c key w0 n)), s. simpl. rewrite Hs. done.
Qed.

(** Polling a quiet destination that holds the marker with an empty value. *)
Lemma poll_treats_empty_as_absent_witness :
  (forall fuel, poll Scenario.still fuel Scenario.some_client "k" Scenario.emptied
                = Stall StillPolling
                    (at_read Scenario.still Scenario.some_client "k" Scenario.emptied fuel)) /\
  (forall fuel, exists vs, length vs = fuel /\
      Forall (fun v => v = None \/ v = Some "") vs /\
      trace (at_read Scenario.still Scenario.some_client "k" Scenario.emptied fuel)
      = trace Scenario.emptied ++ miss_events Scenario.some_client "k" vs) /\
  (forall w0 fuel w',
      poll Scenario.still fuel Scenario.some_client "k" w0 = Ret () w' ->
      exists tr s, trace w' = tr ++ [EvGet Scenario.some_client "k" (Some s)] /\ s <> "").
Proof.
  apply (poll_treats_empty_as_absent Scenario.still Scenario.some_client "k"
           Scenario.emptied).
  - intros n. reflexivity.
  - intros n s. reflexivity.
  - left. vm_compute. reflexivity.
Defined.

(** ** Marker keys *)

Lemma marker_key_inj h1 h2 : marker_key h1 = marker_key h2 -> h1 = h2.
Proof. unfold marker_key. simpl. intros H. by simplify_eq. Qed.

(** C7: two attempts generate the same marker key only if [uhex] gave
    them the same token: the key is the token behind a fixed prefix, so
    distinct tokens give distinct keys, and nothing else than the
    environment's tokens enters the key. *)
Theorem marker_keys_distinct env w1 w2 k1 k2 w1' w2' :
  gen_key env w1 = Ret k1 w1' ->
  gen_key env w2 = Ret k2 w2' ->
  tokens env (n_uuid w1) <> tokens env (n_uuid w2) ->
  k1 <> k2 /\
  k1 = "xdcr_track_" +:+ tokens env (n_uuid w1) /\
  k2 = "xdcr_track_" +:+ tokens env (n_uuid w2).
Proof.
  rewrite !gen_key_run. intros [= <- _] [= <- _] Hne.
  split; [|done]. intros Heq. apply Hne. by apply marker_key_inj.
Qed.

(** The first two keys of the concrete deployment. *)
Lemma marker_keys_distinct_witness :
  "xdcr_track_a" <> "xdcr_track_aa" /\
  "xdcr_track_a" = "xdcr_track_" +:+ "a" /\
  "xdcr_track_aa" = "xdcr_track_" +:+ "aa".
Proof.
  apply (marker_keys_distinct Scenario.healthy Scenario.blank
           (next_uuid Scenario.blank) "xdcr_track_a" "xdcr_track_aa"
           (keyed "a" Scenario.blank) (keyed "aa" (next_uuid Scenario.blank))).
  - reflexivity.
  - reflexivity.
  - vm_compute. discriminate.
Defined.

(** ** The worker loop *)

Section Worker.

Variable env : Env.

Lemma extends_refl w : extends w w [].
Proof. unfold extends. simpl. by rewrite !app_nil_r. Qed.

Lemma extends_trans w w1 w2 evs1 evs2 :
  extends w w1 evs1 -> extends w1 w2 evs2 -> extends w w2 (evs1 ++ evs2).
Proof.
  intros (Ht1 & Hs1 & Hl1) (Ht2 & Hs2 & Hl2). unfold extends, appended, warned.
  rewrite !omap_app, !app_assoc. unfold appended, warned in *.
  rewrite <- Ht1, <- Hs1, <- Hl1. done.
Qed.

Lemma extends_same w w' :
  trace w' = trace w -> sink w' = sink w -> log w' = log w -> extends w w' [].
Proof. intros Ht Hs Hl. unfold extends. simpl. rewrite Ht, Hs, Hl, !app_nil_r. done. Qed.

Lemma extends_added w w' evs : extends w w' evs -> added w w' = evs.
Proof. intros (Ht & _). unfold added. rewrite Ht. apply drop_app_length. Qed.

Lemma tame_ret {A} (a : A) : tame (mret a).
Proof. intros w. exists []. split; [apply extends_refl|]. split; [constructor|done]. Qed.

Lemma tame_bind {A B} (m : Run A) (f : A -> Run B) :
  tame m -> (forall a, tame (f a)) -> tame (m ≫= f).
Proof.
  intros Hm Hf w. destruct (Hm w) as (evs1 & He1 & Hp1 & Hs1).
  rewrite bind_run. destruct (m w) as [a w1|e w1|s w1] eqn:E.
  - destruct (Hf a w1) as (evs2 & He2 & Hp2 & Hs2).
    exists (evs1 ++ evs2). split; [eapply extends_trans; eauto|].
    split; [by apply Forall_app|done].
  - exists evs1. done.
  - exists evs1. split; [done|]. split; [done|]. intros w' [= -> ->]. by eapply Hs1.
Qed.

Lemma tame_uhex : tame (uhex env).
Proof.
  intros w. exists [EvUhex (tokens env (n_uuid w))]. split; [|split; [|done]].
  - unfold extends. simpl. by rewrite !app_nil_r.
  - repeat constructor.
Qed.

Lemma tame_time : tame (time env).
Proof.
  intros w. exists [EvTime (clock env (n_time w))]. split; [|split; [|done]].
  - unfold extends. simpl. by rewrite !app_nil_r.
  - repeat constructor.
Qed.

Lemma tame_sleep secs : tame (sleep secs).
Proof.
  intros w. exists [EvSleep secs]. split; [|split; [|done]].
  - unfold extends. simpl. by rewrite !app_nil_r.
  - repeat constructor.
Qed.

Lemma tame_get_client p : tame (get_client env p).
Proof.
  intros w. unfold get_client.
  destruct (pools w !! p) as [pl|];
    [|exists []; split; [apply extends_refl|split; [constructor|done]]].
  destruct (fault env (n_op w));
    [exists []; split; [by apply extends_same|split; [constructor|done]]|].
  destruct (hand_out pl) as [[c pl']|].
  - exists [EvAcquire p c]. split; [|split; [repeat constructor|done]].
    unfold extends. simpl. by rewrite !app_nil_r.
  - exists []. split; [apply extends_refl|]. split; [constructor|done].
Qed.

Lemma tame_release_client p c : tame (release_client p c).
Proof.
  intros w. unfold release_client.
  destruct (pools w !! p) as [pl|];
    [|exists []; split; [apply extends_refl|split; [constructor|done]]].
  exists [EvRelease p c]. split; [|split; [repeat constructor|done]].
  unfold extends. simpl. by rewrite !app_nil_r.
Qed.

Lemma tame_store_op {A} (f : gmap addr string -> A * gmap addr string * Event) :
  (forall s, plain (snd (f s)) = true) -> tame (store_op env f).
Proof.
  intros Hp w. unfold store_op.
  destruct (fault env (n_op w));
    [exists []; split; [by apply extends_same|split; [constructor|done]]|].
  specialize (Hp (interfere env (n_op w) (stores w))).
  destruct (f (interfere env (n_op w) (stores w))) as [[a s'] ev]. simpl in Hp.
  exists [ev]. split; [|split; [by repeat constructor|done]].
  unfold extends. simpl. destruct ev; try done; simpl; by rewrite !app_nil_r.
Qed.

Lemma tame_poll fuel c key : tame (poll env fuel c key).
Proof.
  induction fuel as [|fuel IH]; simpl.
  - intros w. exists []. split; [apply extends_refl|]. split; [constructor|done].
  - apply tame_bind; [by apply tame_store_op|]. intros r.
    destruct (truthy (value r)); [apply tame_ret|].
    apply tame_bind; [apply tame_sleep|]. intros _. exact IH.
Qed.

Lemma tame_measure_lags fuel sp dp : tame (_measure_lags env fuel sp dp).
Proof.
  unfold _measure_lags.
  apply tame_bind; [apply tame_get_client|]. intros c1.
  apply tame_bind; [apply tame_get_client|]. intros c2.
  apply tame_bind.
  { unfold gen_key. apply tame_bind; [apply tame_uhex|]. intros h. apply tame_ret. }
  intros key.
  apply tame_bind; [by apply tame_store_op|]. intros _.
  apply tame_bind; [apply tame_time|]. intros t0.
  apply tame_bind; [apply tame_poll|]. intros _.
  apply tame_bind; [apply tame_time|]. intros t1.
  apply tame_bind; [by apply tame_store_op|]. intros _.
  apply tame_bind; [apply tame_release_client|]. intros _.
  apply tame_bind; [apply tame_release_client|]. intros _.
  apply tame_ret.
Qed.

Lemma plain_counts evs :
  Forall (fun e => plain e = true) evs ->
  appended evs = [] /\ warned evs = [] /\ iterated evs = [] /\
  Forall (fun e => is_warn e = false) evs.
Proof.
  induction 1 as [|e evs He _ (Ha & Hw & Hi & Hf)]; [by repeat split|].
  unfold appended, warned, iterated in *.
  destruct e; try done; simpl; rewrite ?Ha, ?Hw, ?Hi; repeat split;
    try done; by constructor.
Qed.




Lemma appended_app evs1 evs2 : appended (evs1 ++ evs2) = appended evs1 ++ appended evs2.
Proof. apply omap_app. Qed.






(** The worker loop never returns and never lets an exception out. *)
Lemma sample_stalls rounds fuel self : forall w,
  exists s w', sample env rounds fuel self w = Stall s w'.
Proof.
  induction rounds as [|rounds IH]; intros w; [by eexists _, _|].
  simpl. rewrite bind_run. unfold try_except.
  destruct (for_pools env fuel self (self_pools self) w) as [u w1|e w1|s w1].
  - apply IH.
  - simpl. apply IH.
  - by eexists _, _.
Qed.


End Worker.




(** ** The constructor *)

Section Constructor.

Variable env : Env.

Lemma pool_refs_cons n b bs :
  pool_refs n (b :: bs) = (b, n, n + 1) :: pool_refs (n + 2) bs.
Proof.
  unfold pool_refs. simpl. rewrite !Nat.add_0_r. f_equal.
  apply imap_ext. intros i x _. simpl. f_equal; [f_equal|]; lia.
Qed.

Lemma init_pools_run settings buckets : forall acc w,
  init_pools env settings buckets acc w =
  Ret (acc ++ pool_refs (length (pools w)) buckets)
      (set_pools (pools w ++ (buckets ≫= pool_pair settings (max_clients env))) w).
Proof.
  induction buckets as [|b buckets IH]; intros acc w.
  - simpl. unfold pool_refs. simpl. rewrite !app_nil_r. by destruct w.
  - simpl. rewrite bind_run. simpl. rewrite bind_run. simpl. rewrite IH. simpl.
    rewrite pool_refs_cons, !length_app. simpl.
    rewrite <- !app_assoc. simpl.
    replace (length (pools w) + 1 + 1) with (length (pools w) + 2) by lia.
    unfold set_pools. simpl. rewrite <- ?app_assoc. done.
Qed.

Lemma keeps_ret {A} (a : A) : keeps (mret a).
Proof. by intros w. Qed.

Lemma keeps_bind {A B} (m : Run A) (f : A -> Run B) :
  keeps m -> (forall a, keeps (f a)) -> keeps (m ≫= f).
Proof.
  intros Hm Hf w. rewrite bind_run. specialize (Hm w).
  destruct (m w) as [a w1|e w1|s w1]; simpl in *; [|done|done].
  rewrite Hf. done.
Qed.

Lemma pool_set_insert (ps : list Pool) p pl pl' :
  ps !! p = Some pl -> connargs pl' = connargs pl ->
  connargs <$> <[p := pl']> ps = connargs <$> ps.
Proof.
  intros Hp Hc. rewrite list_fmap_insert, Hc.
  apply list_insert_id. by rewrite list_lookup_fmap, Hp.
Qed.

Lemma keeps_get_client p : keeps (get_client env p).
Proof.
  intros w. unfold get_client. destruct (pools w !! p) as [pl|] eqn:Hp; [|done].
  destruct (fault env (n_op w)); [done|].
  destruct (hand_out pl) as [[c pl']|] eqn:Ho; [|done].
  unfold pool_set. simpl. apply hand_out_capacity in Ho as [_ Hc].
  by eapply pool_set_insert.
Qed.

Lemma keeps_release_client p c : keeps (release_client p c).
Proof.
  intros w. unfold release_client. destruct (pools w !! p) as [pl|] eqn:Hp; [|done].
  unfold pool_set. simpl. by eapply pool_set_insert.
Qed.

Lemma keeps_store_op {A} (f : gmap addr string -> A * gmap addr string * Event) :
  keeps (store_op env f).
Proof.
  intros w. unfold store_op. destruct (fault env (n_op w)); [done|].
  by destruct (f (interfere env (n_op w) (stores w))) as [[a s'] ev].
Qed.

Lemma keeps_poll fuel c key : keeps (poll env fuel c key).
Proof.
  induction fuel as [|fuel IH]; simpl; [by intros w|].
  apply keeps_bind; [apply keeps_store_op|]. intros r.
  destruct (truthy (value r)); [apply keeps_ret|].
  apply keeps_bind; [by intros w|]. intros _. exact IH.
Qed.

Lemma keeps_measure_lags fuel sp dp : keeps (_measure_lags env fuel sp dp).
Proof.
  unfold _measure_lags.
  apply keeps_bind; [apply keeps_get_client|]. intros c1.
  apply keeps_bind; [apply keeps_get_client|]. intros c2.
  apply keeps_bind; [by intros w|]. intros key.
  apply keeps_bind; [apply keeps_store_op|]. intros _.
  apply keeps_bind; [by intros w|]. intros t0.
  apply keeps_bind; [apply keeps_poll|]. intros _.
  apply keeps_bind; [by intros w|]. intros t1.
  apply keeps_bind; [apply keeps_store_op|]. intros _.
  apply keeps_bind; [apply keeps_release_client|]. intros _.
  apply keeps_bind; [apply keeps_release_client|]. intros _.
  apply keeps_ret.
Qed.

Lemma keeps_for_pools fuel self ps : keeps (for_pools env fuel self ps).
Proof.
  induction ps as [|[[b sp] dp] ps IH]; simpl; [by intros w|].
  apply keeps_bind; [by intros w|]. intros _.
  apply keeps_bind; [apply keeps_measure_lags|]. intros lags.
  apply keeps_bind; [|intros _; exact IH].
  intros w. unfold store_append. by destruct (fault env (n_op w)).
Qed.

Lemma keeps_sample rounds fuel self : keeps (sample env rounds fuel self).
Proof.
  induction rounds as [|rounds IH]; simpl; [by intros w|].
  apply keeps_bind; [|intros _; exact IH].
  intros w. unfold try_except. pose proof (keeps_for_pools fuel self (self_pools self) w) as H.
  destruct (for_pools env fuel self (self_pools self) w); simpl in *; done.
Qed.

End Constructor.

Lemma pool_pairs_length settings lim (bs : list string) :
  length (bs ≫= pool_pair settings lim) = 2 * length bs.
Proof.
  induction bs as [|b bs IH]; [done|].
  rewrite bind_cons, length_app, IH. simpl. lia.
Qed.

Lemma pool_pairs_lookup settings lim (bs : list string) : forall i b,
  bs !! i = Some b ->
  (connargs <$> (bs ≫= pool_pair settings lim)) !! (2 * i) =
    Some (mkConnArgs b (master_node settings) b (rest_password settings) true None) /\
  (connargs <$> (bs ≫= pool_pair settings lim)) !! (2 * i + 1) =
    Some (mkConnArgs b (dest_master_node settings) b (rest_password settings) true
                     (Some false)).
Proof.
  induction bs as [|b0 bs IH]; intros i b Hb; [done|].
  rewrite bind_cons. destruct i as [|i].
  - injection Hb as ->. done.
  - simpl in Hb. destruct (IH i b Hb) as [H1 H2].
    replace (2 * S i) with (S (S (2 * i))) by lia.
    replace (S (S (2 * i)) + 1) with (S (S (2 * i + 1))) by lia.
    done.
Qed.

(** C8: the constructor always returns, having built for each bucket
    returned by [get_buckets], in order, one source pool on the master
    node and one destination pool on the destination master node, both
    with the bucket name as user name and the REST password as
    password, and having recorded the bucket with references to these
    two pools in [self.pools]; the worker loop and the measurement
    neither create nor destroy a pool afterwards. *)
Theorem init_builds_one_pool_pair_per_bucket env settings w :
  let self := mkCollector (settings_cluster settings)
                          (pool_refs (length (pools w)) (get_buckets env)) in
  let w' := set_pools (pools w ++ (get_buckets env ≫=
                                     pool_pair settings (max_clients env))) w in
  __init__ env settings w = Ret self w' /\
  length (self_pools self) = length (get_buckets env) /\
  length (pools w') = length (pools w) + 2 * length (get_buckets env) /\
  (forall i b, get_buckets env !! i = Some b ->
     exists sp dp,
       self_pools self !! i = Some (b, sp, dp) /\ sp <> dp /\
       length (pools w) <= sp /\ length (pools w) <= dp /\
       pool_set w' !! sp =
         Some (mkConnArgs b (master_node settings) b (rest_password settings) true None) /\
       pool_set w' !! dp =
         Some (mkConnArgs b (dest_master_node settings) b (rest_password settings) true
                          (Some false))) /\
  (forall rounds fuel,
     pool_set (world_of (sample env rounds fuel self w')) = pool_set w') /\
  (forall fuel sp dp w0,
     pool_set (world_of (_measure_lags env fuel sp dp w0)) = pool_set w0).
Proof.
  cbv zeta. split; [|split; [|split; [|split; [|split]]]].
  - unfold __init__. rewrite bind_run, init_pools_run. done.
  - simpl. unfold pool_refs. by rewrite length_imap.
  - simpl. rewrite length_app, pool_pairs_length. done.
  - intros i b Hb. exists (length (pools w) + 2 * i), (length (pools w) + 2 * i + 1).
    split; [|split; [lia|split; [lia|split; [lia|]]]].
    + simpl. unfold pool_refs. rewrite list_lookup_imap, Hb. done.
    + unfold pool_set. cbn [pools set_pools]. rewrite fmap_app.
      rewrite !lookup_app_r by (rewrite length_fmap; lia). rewrite !length_fmap.
      replace (length (pools w) + 2 * i - length (pools w)) with (2 * i) by lia.
      replace (length (pools w) + 2 * i + 1 - length (pools w)) with (2 * i + 1) by lia.
      by apply pool_pairs_lookup.
  - intros rounds fuel. apply keeps_sample.
  - intros fuel sp dp w0. apply keeps_measure_lags.
Qed.

(** ** The thread launcher *)

Section Launcher.

Import Threads.

Variable self : Collector.

Abbreviation running := (mkThread (Sample self) Running).
Abbreviation created := (mkThread (Sample self) Created).

Lemma sample_never_ends : ~ ends (Sample self).
Proof.
  intros (env & rounds & fuel & w & o & Ho & Hend).
  destruct (sample_stalls env rounds fuel self w) as (s & w' & E).
  rewrite E in Ho. subst o. exact Hend.
Qed.

Lemma collect_lineup : collect self = lineup self NUM_THREADS 0.
Proof. reflexivity. Qed.

Lemma lineup_lookup n k i th :
  table (lineup self n k) !! i = Some th ->
  th = if decide (i < k) then running else created.
Proof.
  simpl. intros H. case_decide as Hik.
  - rewrite lookup_app_l in H by (rewrite length_replicate; lia).
    apply lookup_replicate in H as [-> _]. done.
  - rewrite lookup_app_r in H by (rewrite length_replicate; lia).
    apply lookup_replicate in H as [-> _]. done.
Qed.

Lemma table_start n k :
  k < n ->
  <[k := running]> (replicate k running ++ replicate (n - k) created)
  = replicate (S k) running ++ replicate (n - S k) created.
Proof.
  intros Hk. replace (n - k) with (S (n - S k)) by lia.
  rewrite insert_app_r_alt by (rewrite length_replicate; lia).
  rewrite length_replicate, Nat.sub_diag, (replicate_S_end k), <- app_assoc. done.
Qed.

Lemma seq_start n k : k < n -> seq k (n - k) = k :: seq (S k) (n - S k).
Proof. intros Hk. replace (n - k) with (S (n - S k)) by lia. done. Qed.

Lemma lineup_start n k :
  k < n ->
  step (lineup self n k) (lineup self n (S k)).
Proof.
  intros Hk. unfold lineup.
  rewrite <- (table_start n k Hk), (seq_start n k Hk), fmap_cons.
  apply (step_start _ k _ created); [|done].
  rewrite lookup_app_r by (rewrite length_replicate; lia).
  rewrite length_replicate, Nat.sub_diag.
  replace (n - k) with (S (n - S k)) by lia. done.
Qed.

Lemma lineup_started n k :
  k <= n -> rtc step (lineup self n 0) (lineup self n k).
Proof.
  induction k as [|k IH]; intros Hk; [apply rtc_refl|].
  eapply rtc_r; [apply IH; lia|]. apply lineup_start. lia.
Qed.

(** Whatever happens, the configuration stays a lineup: the only step
    possible is the next [start]; once all threads run, none. *)
Lemma lineup_step n k c :
  0 < n -> k <= n -> step (lineup self n k) c -> k < n /\ c = lineup self n (S k).
Proof.
  intros Hn Hk Hstep. unfold lineup in Hstep.
  destruct (decide (k < n)) as [Hlt|Hge].
  - rewrite (seq_start n k Hlt), fmap_cons in Hstep.
    inversion Hstep as [tb i rest th Hth Hst|tb i rest th Hth Hst
                        |tb i td th Hth Hst Hend]; subst.
    + split; [done|]. apply (lineup_lookup n k) in Hth.
      case_decide; [lia|]. subst th. unfold lineup.
      change (th_target created) with (Sample self).
      rewrite (table_start n k Hlt). done.
    + exfalso. apply (lineup_lookup n k) in Hth.
      case_decide; subst th; [|done]. by apply sample_never_ends.
  - assert (k = n) as -> by lia. rewrite Nat.sub_diag in Hstep. simpl in Hstep.
    destruct n as [|n]; [lia|]. simpl in Hstep.
    inversion Hstep as [tb i rest th Hth Hst|tb i rest th Hth Hst
                        |tb i td th Hth Hst Hend]; subst; exfalso.
    + assert (Hl : table (lineup self (S n) (S n)) !! 0 = Some th).
      { unfold lineup. rewrite Nat.sub_diag. simpl. exact Hth. }
      apply lineup_lookup in Hl. case_decide; [|lia]. subst th. done.
    + assert (Hl : table (lineup self (S n) (S n)) !! i = Some th).
      { unfold lineup. rewrite Nat.sub_diag. simpl. exact Hth. }
      apply lineup_lookup in Hl.
      case_decide; subst th; [|done]. by apply sample_never_ends.
Qed.

Lemma lineup_reach n k c :
  0 < n -> k <= n -> rtc step (lineup self n k) c ->
  exists k', k' <= n /\ c = lineup self n k'.
Proof.
  intros Hn Hk Hrtc. remember (lineup self n k) as c0 eqn:E.
  revert k Hk E. induction Hrtc as [c|c1 c2 c3 Hstep _ IH]; intros k Hk ->.
  - eauto.
  - apply lineup_step in Hstep as [Hlt ->]; [|done|done].
    apply (IH (S k)); [lia|done].
Qed.

End Launcher.

(** C6: [collect] builds exactly [NUM_THREADS] = 10 threads, each with
    the loop [sample] of the same collector (hence the same
    [self.pools]) as its target, starts every one of them, in order, and
    then joins them; since no worker ever ends, every reachable
    configuration still has all ten joins pending and no finished
    thread: [collect] never returns. *)
Theorem collect_starts_ten_workers_and_waits self :
  NUM_THREADS = 10 /\
  Threads.table (Threads.collect self)
    = replicate 10 (Threads.mkThread (Threads.Sample self) Threads.Created) /\
  Threads.todo (Threads.collect self)
    = (Threads.Start <$> seq 0 10) ++ (Threads.Join <$> seq 0 10) /\
  (exists c, rtc Threads.step (Threads.collect self) c /\
     Threads.table c
       = replicate 10 (Threads.mkThread (Threads.Sample self) Threads.Running) /\
     Threads.todo c = Threads.Join <$> seq 0 10) /\
  (forall c, rtc Threads.step (Threads.collect self) c ->
     exists rest, Threads.todo c = rest ++ (Threads.Join <$> seq 0 10) /\
     Forall (fun th => Threads.th_status th <> Threads.Finished /\
                       Threads.th_target th = Threads.Sample self)
            (Threads.table c)).
Proof.
  split; [done|]. split; [done|]. split; [done|]. split.
  - exists (lineup self NUM_THREADS NUM_THREADS). split.
    + rewrite collect_lineup. apply lineup_started. done.
    + done.
  - intros c Hc. rewrite collect_lineup in Hc.
    apply lineup_reach in Hc as (k & Hk & ->); [|unfold NUM_THREADS; lia|lia].
    eexists. split; [reflexivity|]. simpl.
    apply Forall_app. split; apply Forall_replicate; done.
Qed.

(** ** Float arithmetic: the sign of a lag *)

Section FloatSign.

Import PyFloat.

Lemma shr_1_nonneg mrs : (0 <= shr_m mrs)%Z -> (0 <= shr_m (shr_1 mrs))%Z.
Proof.
  destruct mrs as [m r s]. simpl. destruct m as [|p|p]; simpl; try lia.
  - destruct p; simpl; lia.
Qed.

Lemma iter_pos_invariant {A} (P : A -> Prop) (f : A -> A) :
  (forall x, P x -> P (f x)) -> forall p x, P x -> P (SpecFloat.iter_pos f p x).
Proof.
  intros Hf. induction p as [p IH|p IH|]; intros x Hx; simpl; auto.
Qed.

Lemma shr_nonneg mrs e n :
  (0 <= shr_m mrs)%Z -> (0 <= shr_m (fst (shr mrs e n)))%Z.
Proof.
  intros H. unfold shr. destruct n as [|p|p]; simpl; try done.
  apply (iter_pos_invariant (fun x => (0 <= shr_m x)%Z)); [apply shr_1_nonneg|done].
Qed.

Lemma shr_record_of_loc_m m l : shr_m (shr_record_of_loc m l) = m.
Proof. destruct l as [|[]]; reflexivity. Qed.

Lemma shr_fexp_nonneg m e l :
  (0 <= m)%Z -> (0 <= shr_m (fst (shr_fexp prec emax m e l)))%Z.
Proof.
  intros H. unfold shr_fexp. apply shr_nonneg. rewrite shr_record_of_loc_m. done.
Qed.

Lemma round_nearest_even_nonneg m l :
  (0 <= m)%Z -> (0 <= round_nearest_even m l)%Z.
Proof.
  intros H. unfold round_nearest_even. destruct l as [|[]]; try lia.
  destruct (Z.even m); lia.
Qed.

Lemma binary_round_aux_sign sx m e l :
  (0 <= m)%Z -> same_sign sx (binary_round_aux prec emax sx m e l).
Proof.
  intros H. unfold binary_round_aux.
  pose proof (shr_fexp_nonneg m e l H) as H1.
  destruct (shr_fexp prec emax m e l) as [mrs' e']. simpl in H1.
  pose proof (shr_fexp_nonneg _ e' loc_Exact
                (round_nearest_even_nonneg _ (loc_of_shr_record mrs') H1)) as H2.
  destruct (shr_fexp prec emax (round_nearest_even (shr_m mrs') (loc_of_shr_record mrs')) e' loc_Exact) as [mrs'' e''].
  simpl in H2. destruct (shr_m mrs'') as [|p|p]; simpl; [done| |lia].
  destruct (Z.leb e'' (emax - prec)); done.
Qed.

Lemma binary_round_sign sx m e :
  same_sign sx (binary_round prec emax sx m e).
Proof.
  unfold binary_round. destruct (shl_align m e _) as [mz ez].
  apply binary_round_aux_sign. lia.
Qed.

Lemma binary_normalize_nonneg m e :
  (0 <= m)%Z -> nonneg (binary_normalize prec emax m e false).
Proof.
  intros H. unfold binary_normalize. destruct m as [|p|p]; [done| |lia].
  pose proof (binary_round_sign false p e) as Hs.
  destruct (binary_round prec emax false p e); done.
Qed.

(** Mantissa sizes. *)
Lemma digits2_pos_size m : digits2_pos m = Pos.size m.
Proof. induction m as [m IH|m IH|]; simpl; by rewrite ?IH. Qed.

Lemma digits2_bounds m :
  (2 ^ (Zpos (digits2_pos m) - 1) <= Zpos m < 2 ^ Zpos (digits2_pos m))%Z.
Proof.
  rewrite digits2_pos_size. split.
  - pose proof (Pos.size_le m) as H.
    assert (H2 : (2 ^ Zpos (Pos.size m) <= 2 * Zpos m)%Z).
    { rewrite <- Pos2Z.inj_pow. change (2 * Zpos m)%Z with (Zpos m~0). lia. }
    replace (Zpos (Pos.size m)) with (Z.succ (Zpos (Pos.size m) - 1)) in H2 by lia.
    rewrite Z.pow_succ_r in H2 by lia. lia.
  - pose proof (Pos.size_gt m) as H. rewrite <- Pos2Z.inj_pow. lia.
Qed.

Lemma shl_align_value m e e' :
  (e' <= e)%Z -> Zpos (fst (shl_align m e e')) = (Zpos m * 2 ^ (e - e'))%Z.
Proof.
  intros H. unfold shl_align. destruct (e' - e)%Z as [|d|d] eqn:E.
  - replace (e - e')%Z with 0%Z by lia. simpl. lia.
  - lia.
  - simpl. replace (e - e')%Z with (Zpos d) by lia.
    clear. revert m. induction d as [|d IH] using Pos.peano_ind; intros m.
    + simpl. lia.
    + rewrite Pos.iter_succ, Pos2Z.inj_succ, Z.pow_succ_r by lia.
      change (Zpos (Pos.iter xO m d)~0) with (2 * Zpos (Pos.iter xO m d))%Z.
      rewrite IH. lia.
Qed.

(** In canonical form a larger exponent means a larger magnitude. *)
Lemma bounded_exponent_order m e m' e' :
  bounded prec emax m e = true -> bounded prec emax m' e' = true ->
  (e < e')%Z -> (Zpos m < Zpos m' * 2 ^ (e' - e))%Z.
Proof.
  unfold bounded, canonical_mantissa, fexp, emin, prec, emax.
  intros [H1 _]%andb_prop [H2 _]%andb_prop He.
  apply Z.eqb_eq in H1, H2.
  pose proof (digits2_bounds m) as [_ Hm]. pose proof (digits2_bounds m') as [Hm' _].
  assert (Hd : (Zpos (digits2_pos m) <= 53)%Z) by lia.
  assert (Hd' : Zpos (digits2_pos m') = 53%Z) by lia.
  rewrite Hd' in Hm'.
  assert (Hp : (2 ^ Zpos (digits2_pos m) <= 2 ^ 53)%Z) by (apply Z.pow_le_mono_r; lia).
  assert (Hq : (2 ^ 1 <= 2 ^ (e' - e))%Z) by (apply Z.pow_le_mono_r; lia).
  change (2 ^ (53 - 1))%Z with 4503599627370496%Z in Hm'.
  change (2 ^ 53)%Z with 9007199254740992%Z in Hp.
  change (2 ^ 1)%Z with 2%Z in Hq. nia.
Qed.

Lemma compare_cont_le (m m' : positive) :
  match Pos.compare_cont Eq m m' with Lt | Eq => True | Gt => False end ->
  (Zpos m <= Zpos m')%Z.
Proof.
  change (Pos.compare_cont Eq m m') with (Pos.compare m m').
  destruct (Pos.compare_spec m m'); [lia|lia|done].
Qed.

Lemma compare_cont_ge (m m' : positive) :
  match CompOpp (Pos.compare_cont Eq m m') with Lt | Eq => True | Gt => False end ->
  (Zpos m' <= Zpos m)%Z.
Proof.
  change (Pos.compare_cont Eq m m') with (Pos.compare m m').
  destruct (Pos.compare_spec m m'); simpl; [lia|done|lia].
Qed.

(** [x - y] is not negative when [y <= x]. *)
Lemma sub_nonneg x y :
  finite x = true -> finite y = true -> SFleb y x = true ->
  nonneg (SFsub prec emax x y).
Proof.
  destruct x as [sx| |  |sx mx ex], y as [sy| | |sy my ey]; try done.
  - intros _ _ _. simpl. by destruct sx, sy.
  - intros _ _. unfold SFleb. simpl. by destruct sy.
  - intros _ _. unfold SFleb. simpl. by destruct sx.
  - intros Hx Hy Hle. simpl in Hx, Hy. unfold SFsub.
    apply binary_normalize_nonneg.
    rewrite !shl_align_value by lia.
    assert (Hpx : (0 < 2 ^ (ex - Z.min ex ey))%Z) by (apply Z.pow_pos_nonneg; lia).
    assert (Hpy : (0 < 2 ^ (ey - Z.min ex ey))%Z) by (apply Z.pow_pos_nonneg; lia).
    unfold SFleb in Hle. simpl in Hle.
    destruct sy, sx; simpl; try done.
    + (* both negative: |y| >= |x| *)
      destruct (Z.compare_spec ey ex) as [->|Hlt|Hgt]; try done.
      * rewrite Z.min_id, Z.sub_diag. change (2 ^ 0)%Z with 1%Z.
        assert (Zpos mx <= Zpos my)%Z; [|lia].
        apply compare_cont_ge. by destruct (CompOpp _).
      * rewrite Z.min_l by lia. rewrite Z.sub_diag. change (2 ^ 0)%Z with 1%Z.
        pose proof (bounded_exponent_order mx ex my ey Hx Hy Hgt). lia.
    + nia.
    + (* both positive: y <= x *)
      destruct (Z.compare_spec ey ex) as [->|Hlt|Hgt]; try done.
      * rewrite Z.min_id, Z.sub_diag. change (2 ^ 0)%Z with 1%Z.
        assert (Zpos my <= Zpos mx)%Z; [|lia].
        apply compare_cont_le. by destruct (Pos.compare_cont _ _ _).
      * rewrite Z.min_r by lia. rewrite Z.sub_diag. change (2 ^ 0)%Z with 1%Z.
        pose proof (bounded_exponent_order my ey mx ex Hy Hx Hlt). lia.
Qed.

Lemma mul_thousand_nonneg r :
  nonneg r -> nonneg (SFmul prec emax r thousand).
Proof.
  destruct r as [s|s| |s m e]; simpl; try done.
  - intros ->. done.
  - intros ->. simpl.
    match goal with |- nonneg (binary_round_aux _ _ _ ?m ?e ?l) =>
      pose proof (binary_round_aux_sign false m e l) as Hs;
      destruct (binary_round_aux prec emax false m e l) end; try done;
      apply Hs; lia.
Qed.

Lemma nonneg_leb r : nonneg r -> SFleb (S754_zero false) r = true.
Proof. destruct r as [s|s| |s m e]; simpl; try done; by intros ->. Qed.

Lemma lag_nonneg t0 t1 :
  finite t0 = true -> finite t1 = true -> SFleb t0 t1 = true ->
  SFleb (S754_zero false) (SFmul prec emax (SFsub prec emax t1 t0) thousand) = true.
Proof.
  intros H0 H1 Hle. apply nonneg_leb, mul_thousand_nonneg, sub_nonneg; done.
Qed.

End FloatSign.

(** C5: a call of [_measure_lags] that returns gives a dict whose only
    entry, ["xdcr_lag"], is the second clock reading minus the first,
    times 1000, in double-precision arithmetic; when both readings are
    finite doubles and the second is not smaller than the first, that
    value is not smaller than zero. *)
Theorem measure_lags_latency_nonneg env fuel sp dp w lags w' :
  _measure_lags env fuel sp dp w = Ret lags w' ->
  PyFloat.finite (clock env (n_time w)) = true ->
  PyFloat.finite (clock env (S (n_time w))) = true ->
  PyFloat.leb (clock env (n_time w)) (clock env (S (n_time w))) = true ->
  exists x,
    lags = {[ "xdcr_lag" := x ]} /\
    x = PyFloat.mul (PyFloat.sub (clock env (S (n_time w))) (clock env (n_time w)))
                    PyFloat.thousand /\
    PyFloat.leb PyFloat.zero x = true.
Proof.
  intros H Hf0 Hf1 Hle.
  apply measure_Ret in H as (c1 & c2 & w1 & w2 & n & _ & _ & M).
  destruct M as (pl1 & pl1' & pl2 & pl2' & pl3 & pl4 & M). cbv zeta in M.
  destruct M as (_ & _ & _ & _ & _ & _ & _ & _ & _ & ->).
  eexists. split; [reflexivity|]. split; [reflexivity|].
  by apply lag_nonneg.
Qed.

(** One second between the two readings gives a lag of 1000.0 ms. *)
Lemma measure_lags_latency_nonneg_witness :
  exists x,
    ({[ "xdcr_lag" := PyFloat.of_int 1000 ]} : gmap string PyFloat.t)
      = {[ "xdcr_lag" := x ]} /\
    x = PyFloat.mul (PyFloat.sub (PyFloat.of_int 1700000001)
                                 (PyFloat.of_int 1700000000))
                    PyFloat.thousand /\
    PyFloat.leb PyFloat.zero x = true.
Proof.
  apply (measure_lags_latency_nonneg Scenario.healthy 5 0 1 Scenario.ready
           {[ "xdcr_lag" := PyFloat.of_int 1000 ]}
           (world_of (_measure_lags Scenario.healthy 5 0 1 Scenario.ready))).
  - vm_compute. reflexivity.
  - vm_compute. reflexivity.
  - vm_compute. reflexivity.
  - vm_compute. reflexivity.
Defined.

(** * Further properties of the collector *)

(** ** Failure paths of the measurement *)

(** X1: when the source client has been obtained and obtaining the
    destination client fails, [_measure_lags] lets the
    [ConnectionError] out at once: no token is drawn, nothing is
    written to any store, nothing is released, and the source pool is
    left one handle short. *)
Theorem measure_lags_destination_unreachable env fuel sp dp w c1 w1 pl :
  get_client env sp w = Ret c1 w1 ->
  pools w1 !! dp = Some pl ->
  fault env (n_op w1) = true ->
  _measure_lags env fuel sp dp w = Raise ConnectionError (next_op w1) /\
  trace (next_op w1) = trace w ++ [EvAcquire sp c1] /\
  n_uuid (next_op w1) = n_uuid w /\
  stores (next_op w1) = stores w /\
  exists k, capacity_of w sp = Some (S k) /\ capacity_of (next_op w1) sp = Some k.
Proof.
  intros Hg1 Hp Hf. split.
  - unfold _measure_lags. rewrite bind_run, Hg1, bind_run.
    unfold get_client. rewrite Hp, Hf. done.
  - apply get_client_Ret in Hg1 as (pl1 & pl1' & Hp1 & Ho1 & _ & ->).
    split; [done|]. split; [done|]. split; [done|].
    apply hand_out_capacity in Ho1 as [Hc _].
    exists (capacity pl1'). unfold capacity_of. simpl.
    rewrite Hp1, list_lookup_insert_eq by (by eapply lookup_lt_Some).
    simpl. by rewrite Hc.
Qed.

(** With operation 1, the second acquisition, failing on the concrete
    deployment. *)
Lemma measure_lags_destination_unreachable_witness :
  _measure_lags (Scenario.env_with [1]) 5 0 1 Scenario.ready
  = Raise ConnectionError
      (next_op (world_of (get_client (Scenario.env_with [1]) 0 Scenario.ready))) /\
  trace (next_op (world_of (get_client (Scenario.env_with [1]) 0 Scenario.ready)))
  = trace Scenario.ready ++ [EvAcquire 0 (mkClient "src.example" "beer" 0)] /\
  n_uuid (next_op (world_of (get_client (Scenario.env_with [1]) 0 Scenario.ready)))
  = n_uuid Scenario.ready /\
  stores (next_op (world_of (get_client (Scenario.env_with [1]) 0 Scenario.ready)))
  = stores Scenario.ready /\
  exists k, capacity_of Scenario.ready 0 = Some (S k) /\
            capacity_of
              (next_op (world_of (get_client (Scenario.env_with [1]) 0 Scenario.ready)))
              0 = Some k.
Proof.
  apply (measure_lags_destination_unreachable (Scenario.env_with [1]) 5 0 1
           Scenario.ready (mkClient "src.example" "beer" 0) _
           (mkPool (mkConnArgs "beer" "dst.example" "beer" "secret" true (Some false))
                   [] 0 2)).
  - vm_compute. reflexivity.
  - vm_compute. reflexivity.
  - vm_compute. reflexivity.
Defined.

(** ** Degenerate deployments *)

Lemma sample_no_pools env rounds fuel self w :
  self_pools self = [] -> sample env rounds fuel self w = Stall StillLooping w.
Proof.
  intros Hps. induction rounds as [|rounds IH]; [done|].
  simpl. rewrite bind_run. unfold try_except. rewrite Hps. simpl. exact IH.
Qed.

(** X3: when [get_buckets] returns no bucket, the constructor builds no
    pool and leaves [self.pools] empty, and the worker loop then spins
    without doing anything: whatever the number of passes, it has made
    no call, written no event and changed nothing, and it never pauses
    nor ends. *)
Theorem no_bucket_no_work env settings w :
  get_buckets env = [] ->
  __init__ env settings w = Ret (mkCollector (settings_cluster settings) []) w /\
  forall rounds fuel,
    sample env rounds fuel (mkCollector (settings_cluster settings) []) w
    = Stall StillLooping w.
Proof.
  intros Hb. split.
  - unfold __init__. rewrite bind_run, Hb. simpl. done.
  - intros rounds fuel. by apply sample_no_pools.
Qed.

Lemma no_bucket_no_work_witness :
  __init__ Scenario.still Scenario.settings Scenario.blank
  = Ret (mkCollector "east" []) Scenario.blank /\
  forall rounds fuel,
    sample Scenario.still rounds fuel (mkCollector "east" []) Scenario.blank
    = Stall StillLooping Scenario.blank.
Proof.
  apply (no_bucket_no_work Scenario.still Scenario.settings Scenario.blank).
  reflexivity.
Defined.

(** X4: when every operation fails, each pass of the worker loop ends
    in the first bucket, on the failing acquisition of its source
    client: the exception is logged and the next pass starts at once
    with the same bucket.  The buckets after the first are never
    visited, nothing reaches the sink, no handle leaves a pool, and
    there is no pause between the attempts. *)
Theorem sample_first_bucket_down env rounds fuel self w b0 sp0 dp0 rest pl :
  self_pools self = (b0, sp0, dp0) :: rest ->
  pools w !! sp0 = Some pl ->
  (forall n, fault env n = true) ->
  exists w',
    sample env rounds fuel self w = Stall StillLooping w' /\
    trace w' = trace w ++ concat (replicate rounds (failed_pass b0 ConnectionError)) /\
    log w' = log w ++ replicate rounds ConnectionError /\
    sink w' = sink w /\ pools w' = pools w /\ stores w' = stores w /\
    n_op w' = n_op w + rounds.
Proof.
  intros Hps Hp Hf. revert w Hp.
  induction rounds as [|rounds IH]; intros w Hp.
  - exists w. simpl. rewrite !app_nil_r. repeat split; try done; lia.
  - set (w1 := emit (EvIter b0) w).
    set (w2 := emit (EvWarn ConnectionError)
                    (set_log (log w ++ [ConnectionError]) (next_op w1))).
    assert (Hpass : try_except (for_pools env fuel self (self_pools self))
                               (fun e => logger_warn e) w = Ret () w2).
    { unfold try_except. rewrite Hps. simpl. rewrite bind_run. simpl.
      rewrite bind_run. unfold _measure_lags. rewrite bind_run.
      unfold get_client. fold w1.
      change (pools w1) with (pools w). rewrite Hp, Hf. done. }
    destruct (IH w2 Hp) as (w' & Hrun & Ht & Hl & Hs & Hpl & Hst & Hn).
    exists w'. simpl. rewrite bind_run, Hpass.
    split; [exact Hrun|]. rewrite Ht, Hl, Hs, Hpl, Hst, Hn. simpl.
    rewrite <- !app_assoc. simpl. repeat split; try done; lia.
Qed.

Lemma sample_first_bucket_down_witness :
  exists w',
    sample Scenario.down 3 5 Scenario.self Scenario.ready = Stall StillLooping w' /\
    trace w' = trace Scenario.ready
               ++ concat (replicate 3 (failed_pass "beer" ConnectionError)) /\
    log w' = log Scenario.ready ++ replicate 3 ConnectionError /\
    sink w' = sink Scenario.ready /\ pools w' = pools Scenario.ready /\
    stores w' = stores Scenario.ready /\
    n_op w' = n_op Scenario.ready + 3.
Proof.
  apply (sample_first_bucket_down Scenario.down 3 5 Scenario.self Scenario.ready
           "beer" 0 1 [("wine", 2, 3)]
           (mkPool (mkConnArgs "beer" "src.example" "beer" "secret" true None) [] 0 2)).
  - vm_compute. reflexivity.
  - vm_compute. reflexivity.
  - intros n. reflexivity.
Defined.

(** ** References built by the constructor *)

Lemma refs_of_pool_refs (bs : list string) : forall n,
  refs_of (pool_refs n bs) = seq n (2 * length bs).
Proof.
  induction bs as [|b bs IH]; intros n; [done|].
  rewrite pool_refs_cons. unfold refs_of in *. rewrite bind_cons, IH. simpl.
  replace (length bs + S (length bs + 0)) with (S (2 * length bs)) by lia.
  simpl. replace (n + 1) with (S n) by lia. replace (n + 2) with (S (S n)) by lia.
  done.
Qed.

(** X8: the pool references the constructor stores in [self.pools] are
    the next free ones, in order, two for each bucket returned by
    [get_buckets]: they are pairwise distinct, also when a bucket name
    comes twice, none of them was in use before, and each of them names
    a pool that exists afterwards. *)
Theorem init_pool_refs_fresh env settings w self w' :
  __init__ env settings w = Ret self w' ->
  refs_of (self_pools self) = seq (length (pools w)) (2 * length (get_buckets env)) /\
  NoDup (refs_of (self_pools self)) /\
  Forall (fun r => length (pools w) <= r < length (pools w'))
         (refs_of (self_pools self)).
Proof.
  unfold __init__. rewrite bind_run, init_pools_run. intros [= <- <-]. simpl.
  rewrite refs_of_pool_refs. split; [done|]. split; [apply NoDup_seq|].
  apply Forall_forall. intros r Hr. apply elem_of_seq in Hr.
  rewrite length_app, pool_pairs_length. lia.
Qed.

Lemma init_pool_refs_fresh_witness :
  refs_of (self_pools Scenario.self) = seq (length (pools Scenario.blank)) (2 * 2) /\
  NoDup (refs_of (self_pools Scenario.self)) /\
  Forall (fun r => length (pools Scenario.blank) <= r < length (pools Scenario.ready))
         (refs_of (self_pools Scenario.self)).
Proof.
  apply (init_pool_refs_fresh Scenario.healthy Scenario.settings Scenario.blank
           Scenario.self Scenario.ready).
  vm_compute. reflexivity.
Defined.

(** ** The value written is never falsy *)

Lemma marker_key_truthy h : truthy (Some (marker_key h)) = true.
Proof. reflexivity. Qed.

(** X9: the value [_measure_lags] writes under the marker key is the
    key itself, which is not empty whatever the token, the empty token
    included.  So as soon as a destination read comes back with what
    the [set] of the call left in the source store, the loop ends at
    that read: the delete not failing, the call returns, after exactly
    the misses before that read, the value of its last read being the
    key. *)
Theorem measure_lags_ends_on_replica env fuel sp dp w c1 w1 c2 w2 n :
  get_client env sp w = Ret c1 w1 ->
  get_client env dp w1 = Ret c2 w2 ->
  fault env (n_op w2) = false ->
  let key := marker_key (tokens env (n_uuid w2)) in
  let w5 := loop_start env c1 w2 in
  (forall i, i < n -> read_misses env c2 key w5 i) ->
  fault env (n_op w5 + n) = false ->
  seen env c2 key (at_read env c2 key w5 n) = stores w5 !! (site_of c1, key) ->
  fault env (n_op w5 + S n) = false ->
  n < fuel ->
  exists lags w' vs,
    _measure_lags env fuel sp dp w = Ret lags w' /\
    length vs = n /\
    trace w' = trace w ++
               call_events sp dp c1 c2 (tokens env (n_uuid w2)) (clock env (n_time w2))
                           (clock env (S (n_time w2))) vs (Some key).
Proof.
  intros Hg1 Hg2 Hset key w5 Hm Hf Hrep Hdel Hn.
  assert (Hsrc : stores w5 !! (site_of c1, key) = Some key).
  { unfold w5, loop_start. simpl. apply lookup_insert_eq. }
  rewrite Hsrc in Hrep.
  assert (Ha : appears_at env c2 key w5 n).
  { split; [done|]. split; [by rewrite at_read_n_op|].
    rewrite Hrep. apply marker_key_truthy. }
  destruct (call_returns env sp dp w c1 c2 w1 w2 Hg1 Hg2 Hset fuel n Ha Hn Hdel)
    as (lags & w' & vs & H & Hl & _ & Ht).
  fold key w5 in Ht. rewrite Hrep in Ht. eauto 10.
Qed.

(** With the empty token on the concrete deployment: replication
    catches up before the second read, which ends the loop. *)
Lemma measure_lags_ends_on_replica_witness :
  exists lags w' vs,
    _measure_lags Scenario.bare 5 0 1 Scenario.ready = Ret lags w' /\
    length vs = 1 /\
    trace w' = trace Scenario.ready ++
               call_events 0 1 Scenario.src_client Scenario.some_client ""
                           (PyFloat.of_int 1700000000) (PyFloat.of_int 1700000001)
                           vs (Some "xdcr_track_").
Proof.
  apply (measure_lags_ends_on_replica Scenario.bare 5 0 1 Scenario.ready
           Scenario.src_client (world_of (get_client Scenario.bare 0 Scenario.ready))
           Scenario.some_client (Scenario.both_held Scenario.bare) 1).
  - vm_compute. reflexivity.
  - vm_compute. reflexivity.
  - reflexivity.
  - intros i Hi. assert (i = 0) as -> by lia. split; vm_compute; reflexivity.
  - reflexivity.
  - vm_compute. reflexivity.
  - reflexivity.
  - lia.
Defined.

(** ** What the measurement leaves to the worker loop *)

(** X11: however a call of [_measure_lags] ends, by return, by
    exception or by not coming back, it has handed nothing to the sink
    and logged nothing: reporting is left to the worker loop. *)
Theorem measure_lags_reports_nothing env fuel sp dp w :
  sink (world_of (_measure_lags env fuel sp dp w)) = sink w /\
  log (world_of (_measure_lags env fuel sp dp w)) = log w /\
  Forall (fun e => plain e = true)
         (added w (world_of (_measure_lags env fuel sp dp w))).
Proof.
  destruct (tame_measure_lags env fuel sp dp w) as (evs & He & Hp & _).
  rewrite (extends_added _ _ _ He). destruct He as (_ & Hs & Hl).
  destruct (plain_counts _ Hp) as (Ha & Hw & _).
  rewrite Hs, Hl, Ha, Hw, !app_nil_r. done.
Qed.

(** ** The configurations of the launcher *)

(** X10: the configurations [collect] can reach are exactly those in
    which the first [k] of the ten threads are running, the others are
    not started yet, and all ten joins are pending, for [k] from 0 to
    10: the threads are started strictly in list order and no join
    ever returns. *)
Theorem collect_reachable self c :
  rtc Threads.step (Threads.collect self) c <->
  exists k, k <= 10 /\ c = lineup self 10 k.
Proof.
  rewrite collect_lineup. split.
  - intros H. apply lineup_reach in H; [exact H|unfold NUM_THREADS; lia|lia].
  - intros (k & Hk & ->). by apply lineup_started.
Qed.

(** ** No cleanup on the way out by exception *)

Section Failure.

Variable env : Env.

Lemma bind_Raise {A B} (m : Run A) (f : A -> Run B) w e w' :
  (m ≫= f) w = Raise e w' ->
  m w = Raise e w' \/ exists a w1, m w = Ret a w1 /\ f a w1 = Raise e w'.
Proof.
  rewrite bind_run. destruct (m w) as [a w1|e1 w1|s1 w1]; intros H;
    [right; eauto|left; by injection H as -> ->|discriminate H].
Qed.

Lemma get_client_Raise p w e w' :
  get_client env p w = Raise e w' ->
  (e = AttributeError /\ w' = w) \/ (e = ConnectionError /\ w' = next_op w).
Proof.
  unfold get_client. destruct (pools w !! p) as [pl|]; [|intros [= <- <-]; by left].
  destruct (fault env (n_op w)); [intros [= <- <-]; by right|].
  by destruct (hand_out pl) as [[c pl']|].
Qed.

Lemma release_client_Raise p c w e w' :
  release_client p c w = Raise e w' -> pools w !! p = None.
Proof. unfold release_client. by destruct (pools w !! p). Qed.

Lemma store_op_Raise {A} (f : gmap addr string -> A * gmap addr string * Event)
    w e w' :
  store_op env f w = Raise e w' ->
  e = StoreOperationError /\
  w' = set_stores (interfere env (n_op w) (stores w)) (next_op w).
Proof.
  unfold store_op. destruct (fault env (n_op w)); [by intros [= <- <-]|].
  by destruct (f (interfere env (n_op w) (stores w))) as [[a s'] ev].
Qed.

Lemma poll_Raise fuel : forall c key w e w',
  poll env fuel c key w = Raise e w' ->
  exists i, (forall j, j < i -> read_misses env c key w j) /\
            e = StoreOperationError /\
            w' = set_stores (interfere env (n_op (at_read env c key w i))
                                       (stores (at_read env c key w i)))
                            (next_op (at_read env c key w i)).
Proof.
  induction fuel as [|fuel IH]; intros c key w e w' H; [done|].
  rewrite poll_S in H. destruct (fault env (n_op w)) eqn:Hf.
  - injection H as <- <-. exists 0. split; [intros; lia|done].
  - destruct (truthy (seen env c key w)) eqn:Ht; [done|].
    apply IH in H as (i & Hm & -> & ->). exists (S i).
    rewrite at_read_S. split; [|done].
    intros [|j] Hj; [by split|]. unfold read_misses. rewrite !at_read_S.
    apply Hm. lia.
Qed.

Lemma added_app w w' evs : trace w' = trace w ++ evs -> added w w' = evs.
Proof. intros H. unfold added. rewrite H. apply drop_app_length. Qed.

Lemma miss_events_no_cleanup c key vs :
  Forall (fun ev => is_delete ev = false /\ is_release ev = false)
         (miss_events c key vs).
Proof.
  induction vs as [|v vs IH]; [constructor|].
  unfold miss_events in *. simpl. repeat constructor. exact IH.
Qed.

End Failure.

(** X2: when a call of [_measure_lags] ends by an exception, it has
    neither deleted the marker nor released a client.  If the exception
    is a store error, both clients had been obtained and the pools are
    exactly as the two acquisitions left them; otherwise the failure
    came while obtaining a client, before any token was drawn and
    before anything was written. *)
Theorem measure_lags_raise_skips_cleanup env fuel sp dp w e w' :
  _measure_lags env fuel sp dp w = Raise e w' ->
  Forall (fun ev => is_delete ev = false /\ is_release ev = false) (added w w') /\
  (e = StoreOperationError ->
   exists c1 w1 c2 w2,
     get_client env sp w = Ret c1 w1 /\ get_client env dp w1 = Ret c2 w2 /\
     pools w' = pools w2) /\
  (e <> StoreOperationError -> stores w' = stores w /\ n_uuid w' = n_uuid w).
Proof.
  unfold _measure_lags. intros H.
  apply bind_Raise in H as [H|(c1 & w1 & Hg1 & H)].
  { apply get_client_Raise in H as [[-> ->]|[-> ->]];
      (split; [by rewrite (added_app _ _ []); [constructor|rewrite app_nil_r]|];
       split; [done|done]). }
  apply bind_Raise in H as [H|(c2 & w2 & Hg2 & H)].
  { pose proof Hg1 as Hg1'.
    apply get_client_Ret in Hg1' as (pl1 & pl1' & _ & _ & _ & ->).
    apply get_client_Raise in H as [[-> ->]|[-> ->]];
      (split; [rewrite (added_app _ _ [EvAcquire sp c1]); [by repeat constructor|done]|];
       split; [done|done]). }
  destruct (get_client_twice env _ _ _ _ _ _ _ Hg1 Hg2)
    as (pl1 & pl1' & pl2 & pl2' & Hp1 & Ho1 & Hp2 & Ho2 & E1 & E2).
  assert (Hlen : length (pools w2) = length (pools w)).
  { subst w1 w2. simpl. by rewrite !length_insert. }
  assert (Hsp : sp < length (pools w)) by (by eapply lookup_lt_Some).
  assert (Hdp : dp < length (pools w)).
  { apply lookup_lt_Some in Hp2. subst w1. simpl in Hp2.
    by rewrite length_insert in Hp2. }
  assert (Ht2 : trace w2 = trace w ++ [EvAcquire sp c1; EvAcquire dp c2]).
  { subst w1 w2. simpl. by rewrite <- app_assoc. }
  clear E1 E2 Hp1 Ho1 Hp2 Ho2.
  apply bind_Raise in H as [H|(key & w3 & Hk & H)]; [by rewrite gen_key_run in H|].
  rewrite gen_key_run in Hk. injection Hk as <- <-.
  set (h := tokens env (n_uuid w2)) in *. set (key := marker_key h) in *.
  apply bind_Raise in H as [H|(u4 & w4 & Hset & H)].
  { apply store_op_Raise in H as [-> ->].
    split; [|split; [intros _; by exists c1, w1, c2, w2|done]].
    rewrite (added_app _ _ [EvAcquire sp c1; EvAcquire dp c2; EvUhex h]).
    - by repeat constructor.
    - simpl. rewrite Ht2, <- app_assoc. done. }
  apply client_set_Ret in Hset as [_ ->].
  apply bind_Raise in H as [H|(t0 & w5 & Htime & H)]; [by rewrite time_run in H|].
  rewrite time_run in Htime. injection Htime as <- <-.
  set (w5 := timed _ (written env c1 key key (keyed h w2))) in *.
  assert (Ht5 : trace w5 = trace w ++ [EvAcquire sp c1; EvAcquire dp c2; EvUhex h;
                                       EvSet c1 key key; EvTime (clock env (n_time w2))]).
  { subst w5. simpl. rewrite Ht2, <- !app_assoc. done. }
  assert (Hp5 : pools w5 = pools w2) by done.
  apply bind_Raise in H as [H|(u6 & w6 & Hpoll & H)].
  { apply poll_Raise in H as (i & Hm & -> & ->).
    destruct (at_read_trace env c2 key w5 i Hm) as (vs & _ & _ & Htr).
    pose proof (at_read_frame env c2 key w5 i) as (_ & _ & _ & Hpl & _).
    split; [|split; [intros _; exists c1, w1, c2, w2; simpl; by rewrite Hpl|done]].
    erewrite added_app; [|simpl; rewrite Htr, Ht5, <- app_assoc; reflexivity].
    apply Forall_app. split; [by repeat constructor|apply miss_events_no_cleanup]. }
  apply poll_Ret in Hpoll as (n & _ & [Hm _] & ->).
  destruct (at_read_trace env c2 key w5 n Hm) as (vs & _ & _ & Htr).
  pose proof (at_read_frame env c2 key w5 n) as (_ & _ & _ & Hpl & _).
  apply bind_Raise in H as [H|(t1 & w7 & Htime & H)]; [by rewrite time_run in H|].
  rewrite time_run in Htime. injection Htime as <- <-.
  apply bind_Raise in H as [H|(u8 & w8 & Hdel & H)].
  { apply store_op_Raise in H as [-> ->].
    split; [|split; [intros _; exists c1, w1, c2, w2; simpl; by rewrite Hpl|done]].
    erewrite added_app;
      [|simpl; rewrite Htr, Ht5, <- !app_assoc; reflexivity].
    apply Forall_app. split; [by repeat constructor|].
    apply Forall_app. split; [apply miss_events_no_cleanup|by repeat constructor]. }
  apply client_delete_Ret in Hdel as [_ ->].
  exfalso.
  apply bind_Raise in H as [H|(u9 & w9 & Hrel & H)].
  { apply release_client_Raise in H. simpl in H. rewrite Hpl, Hp5 in H.
    apply lookup_ge_None in H. lia. }
  apply release_client_Ret in Hrel as (pl3 & _ & ->).
  apply bind_Raise in H as [H|(u10 & w10 & Hrel & H)]; [|done].
  apply release_client_Raise in H. simpl in H. rewrite Hpl, Hp5 in H.
  apply lookup_ge_None in H. rewrite length_insert in H. lia.
Qed.

(** The [delete] failing, operation 5 of a measurement with one miss. *)
Lemma measure_lags_raise_skips_cleanup_witness :
  Forall (fun ev => is_delete ev = false /\ is_release ev = false)
         (added Scenario.ready
                (world_of (_measure_lags (Scenario.env_with [5]) 5 0 1 Scenario.ready))) /\
  (StoreOperationError = StoreOperationError ->
   exists c1 w1 c2 w2,
     get_client (Scenario.env_with [5]) 0 Scenario.ready = Ret c1 w1 /\
     get_client (Scenario.env_with [5]) 1 w1 = Ret c2 w2 /\
     pools (world_of (_measure_lags (Scenario.env_with [5]) 5 0 1 Scenario.ready))
     = pools w2) /\
  (StoreOperationError <> StoreOperationError ->
   stores (world_of (_measure_lags (Scenario.env_with [5]) 5 0 1 Scenario.ready))
   = stores Scenario.ready /\
   n_uuid (world_of (_measure_lags (Scenario.env_with [5]) 5 0 1 Scenario.ready))
   = n_uuid Scenario.ready).
Proof.
  apply (measure_lags_raise_skips_cleanup (Scenario.env_with [5]) 5 0 1 Scenario.ready).
  vm_compute. reflexivity.
Defined.

(** ** What reaches the sink *)

Section Sink.

Variable env : Env.
Variable self : Collector.

Lemma for_pools_tags fuel (ps : list (string * nat * nat)) :
  Forall (fun p => fst (fst p) ∈ buckets_of self) ps ->
  forall w, exists evs,
    extends w (world_of (for_pools env fuel self ps w)) evs /\
    Forall (tagged self) (appended evs).
Proof.
  induction ps as [|[[b sp] dp] ps IH]; intros Hps w.
  - exists []. split; [apply extends_refl|constructor].
  - apply Forall_cons in Hps as [Hb Hps]. simpl in Hb.
    simpl. rewrite bind_run. simpl. rewrite bind_run.
    assert (Hi : extends w (emit (EvIter b) w) [EvIter b]).
    { unfold extends. simpl. by rewrite !app_nil_r. }
    destruct (tame_measure_lags env fuel sp dp (emit (EvIter b) w))
      as (evs1 & He1 & Hp1 & _).
    destruct (plain_counts _ Hp1) as (Ha1 & _).
    destruct (_measure_lags env fuel sp dp (emit (EvIter b) w))
      as [lags w1|e w1|s w1] eqn:E; simpl in He1.
    + apply measure_Ret in E as (c1 & c2 & w1' & w2' & n & _ & _ & M).
      destruct M as (pl1 & pl1' & pl2 & pl2' & pl3 & pl4 & M). cbv zeta in M.
      destruct M as (_ & _ & _ & _ & _ & _ & _ & _ & _ & Hlags).
      rewrite ?bind_run. unfold store_append.
      destruct (fault env (n_op w1)).
      * exists ([EvIter b] ++ evs1 ++ []). split.
        -- eapply extends_trans; [exact Hi|]. eapply extends_trans; [exact He1|].
           by apply extends_same.
        -- rewrite !appended_app, Ha1. constructor.
      * set (entry := mkSinkEntry lags (cluster self) b COLLECTOR).
        set (w2 := emit (EvAppend entry) (set_sink (sink w1 ++ [entry]) (next_op w1))).
        assert (He2 : extends w1 w2 [EvAppend entry]).
        { unfold extends. subst w2. simpl. by rewrite !app_nil_r. }
        destruct (IH Hps w2) as (evs3 & He3 & Hf3).
        exists ([EvIter b] ++ evs1 ++ [EvAppend entry] ++ evs3). split.
        -- eapply extends_trans; [exact Hi|]. eapply extends_trans; [exact He1|].
           eapply extends_trans; [exact He2|]. exact He3.
        -- rewrite !appended_app, Ha1. simpl. constructor; [|exact Hf3].
           unfold tagged. subst entry. simpl. split; [done|]. split; [done|].
           split; [done|]. rewrite Hlags, dom_singleton_L.
           unfold METRICS. simpl. by rewrite union_empty_r_L.
    + exists ([EvIter b] ++ evs1). split.
      * eapply extends_trans; [exact Hi|exact He1].
      * rewrite appended_app, Ha1. constructor.
    + exists ([EvIter b] ++ evs1). split.
      * eapply extends_trans; [exact Hi|exact He1].
      * rewrite appended_app, Ha1. constructor.
Qed.

Lemma sample_tags rounds fuel : forall w,
  exists evs,
    extends w (world_of (sample env rounds fuel self w)) evs /\
    Forall (tagged self) (appended evs).
Proof.
  assert (Hall : Forall (fun p => fst (fst p) ∈ buckets_of self) (self_pools self)).
  { apply Forall_forall. intros p Hp. unfold buckets_of.
    apply list_elem_of_fmap. by exists p. }
  induction rounds as [|rounds IH]; intros w.
  - exists []. split; [apply extends_refl|constructor].
  - simpl. rewrite bind_run. unfold try_except.
    destruct (for_pools_tags fuel (self_pools self) Hall w) as (evs1 & He1 & Hf1).
    destruct (for_pools env fuel self (self_pools self) w) as [u w1|e w1|s w1];
      simpl in He1.
    + destruct (IH w1) as (evs2 & He2 & Hf2). exists (evs1 ++ evs2).
      split; [eapply extends_trans; eauto|].
      rewrite appended_app. by apply Forall_app.
    + simpl.
      set (w2 := emit (EvWarn e) (set_log (log w1 ++ [e]) w1)).
      assert (Hw : extends w1 w2 [EvWarn e]).
      { unfold extends. subst w2. simpl. by rewrite !app_nil_r. }
      destruct (IH w2) as (evs2 & He2 & Hf2). exists (evs1 ++ [EvWarn e] ++ evs2).
      split; [eapply extends_trans; [exact He1|]; eapply extends_trans; eauto|].
      rewrite !appended_app. apply Forall_app. split; [done|]. exact Hf2.
    + exists evs1. done.
Qed.

End Sink.

(** X5: whatever happens during a run of the worker loop, the sink only
    grows, and every entry it receives carries the cluster label of the
    collector, the collector name ["xdcr_lag"], the name of one of the
    buckets of [self.pools], and a dict whose keys are exactly the
    metrics the class declares in [METRICS]. *)
Theorem sample_tags_every_sample env rounds fuel self w :
  exists new,
    sink (world_of (sample env rounds fuel self w)) = sink w ++ new /\
    Forall (fun e => se_cluster e = cluster self /\
                     se_collector e = "xdcr_lag" /\
                     se_bucket e ∈ buckets_of self /\
                     dom (se_lags e) = list_to_set METRICS) new.
Proof.
  destruct (sample_tags env self rounds fuel w) as (evs & (_ & Hs & _) & Hf).
  exists (appended evs). split; [exact Hs|exact Hf].
Qed.

(** ** Source and destination on one store *)

(** X6: when both pools hand out clients of one and the same store
    (source and destination cluster being the same host), nothing fails
    and nobody else writes, [_measure_lags] comes back after a single
    read, without a pause: it has seen its own write at once.  It has
    made seven calls on pools and clients in all (two [get_client], one
    [set], one [get], one [delete], two [release_client]), and leaves
    the store as it found it, but for the marker key, which is absent. *)
Theorem measure_lags_loopback env fuel sp dp w c1 w1 c2 w2 :
  get_client env sp w = Ret c1 w1 ->
  get_client env dp w1 = Ret c2 w2 ->
  site_of c1 = site_of c2 ->
  (forall n, fault env n = false) ->
  (forall n s, interfere env n s = s) ->
  0 < fuel ->
  exists lags w',
    _measure_lags env fuel sp dp w = Ret lags w' /\
    trace w' = trace w ++
               call_events sp dp c1 c2 (tokens env (n_uuid w)) (clock env (n_time w))
                           (clock env (S (n_time w))) []
                           (Some (marker_key (tokens env (n_uuid w)))) /\
    stores w' = delete (site_of c1, marker_key (tokens env (n_uuid w))) (stores w) /\
    length (List.filter is_call (added w w')) = 7 /\
    length (List.filter is_get (added w w')) = 1 /\
    Forall (fun e => is_sleep e = false) (added w w').
Proof.
  intros Hg1 Hg2 Hsite Hnf Hq Hfuel.
  destruct (get_client_twice env _ _ _ _ _ _ _ Hg1 Hg2)
    as (pl1 & pl1' & pl2 & pl2' & Hp1 & Ho1 & Hp2 & Ho2 & E1 & E2).
  assert (Hsp : sp < length (pools w)) by (by eapply lookup_lt_Some).
  assert (Hdp : dp < length (pools w)).
  { apply lookup_lt_Some in Hp2. simpl in Hp2. by rewrite length_insert in Hp2. }
  set (h := tokens env (n_uuid w)). set (key := marker_key h).
  set (w3 := keyed h w2).
  set (w4 := written env c1 key key w3).
  set (w5 := timed (clock env (n_time w)) w4).
  set (w6 := after_get env c2 key w5).
  set (w7 := timed (clock env (S (n_time w))) w6).
  set (w8 := deleted env c1 key w7).
  assert (Hseen : seen env c2 key w5 = Some key).
  { unfold seen. rewrite Hq. subst w5 w4. simpl. rewrite Hq, <- Hsite.
    apply lookup_insert_eq. }
  assert (Hpoll : poll env fuel c2 key w5 = Ret () w6).
  { destruct fuel as [|fuel]; [lia|]. rewrite poll_S, Hnf, Hseen.
    subst key. by rewrite marker_key_truthy. }
  assert (Hpl8 : pools w8 = <[dp := pl2']> (<[sp := pl1']> (pools w))).
  { subst w8 w7 w6 w5 w4 w3 w2 w1. done. }
  destruct (lookup_lt_is_Some_2 (pools w8) sp) as [pl3 Hp3].
  { rewrite Hpl8, !length_insert. done. }
  set (w9 := released sp c1 pl3 w8).
  destruct (lookup_lt_is_Some_2 (pools w9) dp) as [pl4 Hp4].
  { replace (length (pools w9)) with (length (pools w)); [done|].
    subst w9 w8 w7 w6 w5 w4 w3 w2 w1. simpl. by rewrite !length_insert. }
  assert (Htr : trace (released dp c2 pl4 w9)
                = trace w ++ call_events sp dp c1 c2 h (clock env (n_time w))
                                         (clock env (S (n_time w))) [] (Some key)).
  { unfold call_events. clear Hpoll Hp3 Hp4 Hpl8. unfold seen in Hseen.
    subst w9 w8 w7 w6 w5 w4 w3 w2 w1. simpl in Hseen |- *.
    unfold seen. simpl. rewrite Hseen, <- !app_assoc. done. }
  eexists _, (released dp c2 pl4 w9).
  rewrite (added_app _ _ _ Htr).
  split; [|split; [exact Htr|split; [|split; [done|split; [done|]]]]].
  - unfold _measure_lags.
    rewrite bind_run, Hg1, bind_run, Hg2, bind_run, gen_key_run.
    replace (n_uuid w2) with (n_uuid w) by (subst w2 w1; done).
    fold h key w3.
    rewrite bind_run, (client_set_run env c1 key key w3 (Hnf _)). fold w4.
    rewrite bind_run, time_run.
    replace (n_time w4) with (n_time w) by (subst w4 w3 w2 w1; done). fold w5.
    rewrite bind_run, Hpoll, bind_run, time_run.
    replace (n_time w6) with (S (n_time w)) by (subst w6 w5 w4 w3 w2 w1; done).
    fold w7.
    rewrite bind_run, (client_delete_run env c1 key w7 (Hnf _)). fold w8.
    rewrite bind_run, (release_client_run sp c1 pl3 w8 Hp3). fold w9.
    rewrite bind_run, (release_client_run dp c2 pl4 w9 Hp4).
    reflexivity.
  - subst w9 w8 w7 w6 w5 w4 w3 w2 w1. simpl. rewrite !Hq.
    apply delete_insert_eq.
  - unfold call_events. by repeat constructor.
Qed.

(** One host for both clusters, on the concrete deployment. *)
Lemma measure_lags_loopback_witness :
  exists lags w',
    _measure_lags Scenario.alone 1 0 1 Scenario.looped = Ret lags w' /\
    trace w' = trace Scenario.looped ++
               call_events 0 1 (mkClient "one.example" "beer" 0)
                           (mkClient "one.example" "beer" 0) "a"
                           (PyFloat.of_int 1700000000) (PyFloat.of_int 1700000001) []
                           (Some "xdcr_track_a") /\
    stores w' = delete (("one.example", "beer"), "xdcr_track_a") (stores Scenario.looped) /\
    length (List.filter is_call (added Scenario.looped w')) = 7 /\
    length (List.filter is_get (added Scenario.looped w')) = 1 /\
    Forall (fun e => is_sleep e = false) (added Scenario.looped w').
Proof.
  apply (measure_lags_loopback Scenario.alone 1 0 1 Scenario.looped
           (mkClient "one.example" "beer" 0)
           (world_of (get_client Scenario.alone 0 Scenario.looped))
           (mkClient "one.example" "beer" 0)
           (world_of (get_client Scenario.alone 1
                        (world_of (get_client Scenario.alone 0 Scenario.looped))))).
  - vm_compute. reflexivity.
  - vm_compute. reflexivity.
  - reflexivity.
  - intros n. reflexivity.
  - intros n s. reflexivity.
  - lia.
Defined.

(** ** Marker keys over a whole run *)

Section Keys.

Variable env : Env.

Lemma set_keys_app evs1 evs2 : set_keys (evs1 ++ evs2) = set_keys evs1 ++ set_keys evs2.
Proof. apply omap_app. Qed.

Lemma setless_ret {A} (a : A) : setless (mret a).
Proof. intros w. exists []. simpl. by rewrite app_nil_r. Qed.

Lemma setless_bind {A B} (m : Run A) (f : A -> Run B) :
  setless m -> (forall a, setless (f a)) -> setless (m ≫= f).
Proof.
  intros Hm Hf w. destruct (Hm w) as (evs1 & Ht1 & Hk1 & Hu1).
  rewrite bind_run. destruct (m w) as [a w1|e w1|s w1]; simpl in *.
  - destruct (Hf a w1) as (evs2 & Ht2 & Hk2 & Hu2). exists (evs1 ++ evs2).
    rewrite Ht2, Ht1, Hu2, Hu1, set_keys_app, Hk1, Hk2, app_assoc. done.
  - by exists evs1.
  - by exists evs1.
Qed.

Lemma setless_tell e : is_set e = false -> is_uhex e = false -> setless (tell e).
Proof. intros Hs Hu w. exists [e]. simpl. by destruct e. Qed.

Lemma setless_time : setless (time env).
Proof. intros w. by exists [EvTime (clock env (n_time w))]. Qed.

Lemma setless_get_client p : setless (get_client env p).
Proof.
  intros w. unfold get_client.
  destruct (pools w !! p) as [pl|]; [|exists []; simpl; by rewrite app_nil_r].
  destruct (fault env (n_op w)); [exists []; simpl; by rewrite app_nil_r|].
  destruct (hand_out pl) as [[c pl']|]; [by exists [EvAcquire p c]|].
  exists []. simpl. by rewrite app_nil_r.
Qed.

Lemma setless_release_client p c : setless (release_client p c).
Proof.
  intros w. unfold release_client.
  destruct (pools w !! p) as [pl|]; [by exists [EvRelease p c]|].
  exists []. simpl. by rewrite app_nil_r.
Qed.

Lemma setless_store_op {A} (f : gmap addr string -> A * gmap addr string * Event) :
  (forall s, is_set (snd (f s)) = false /\ is_uhex (snd (f s)) = false) ->
  setless (store_op env f).
Proof.
  intros Hp w. unfold store_op.
  destruct (fault env (n_op w)); [exists []; simpl; by rewrite app_nil_r|].
  specialize (Hp (interfere env (n_op w) (stores w))).
  destruct (f (interfere env (n_op w) (stores w))) as [[a s'] ev].
  simpl in Hp. destruct Hp as [Hs Hu]. exists [ev]. simpl. by destruct ev.
Qed.

Lemma setless_poll fuel c key : setless (poll env fuel c key).
Proof.
  induction fuel as [|fuel IH]; simpl.
  - intros w. exists []. simpl. by rewrite app_nil_r.
  - apply setless_bind; [by apply setless_store_op|]. intros r.
    destruct (truthy (value r)); [apply setless_ret|].
    apply setless_bind; [by apply setless_tell|]. intros _. exact IH.
Qed.

Lemma setless_store_append lags cl b col : setless (store_append env lags cl b col).
Proof.
  intros w. unfold store_append.
  destruct (fault env (n_op w)); [exists []; simpl; by rewrite app_nil_r|].
  by eexists [EvAppend _].
Qed.

Lemma setless_logger_warn e : setless (logger_warn e).
Proof. intros w. by exists [EvWarn e]. Qed.

Lemma keys_drawn_trans w w1 w2 evs1 evs2 idxs1 idxs2 :
  keys_drawn env w w1 evs1 idxs1 -> keys_drawn env w1 w2 evs2 idxs2 ->
  keys_drawn env w w2 (evs1 ++ evs2) (idxs1 ++ idxs2).
Proof.
  intros (Ht1 & Hu1 & Hk1 & Hn1 & Hr1) (Ht2 & Hu2 & Hk2 & Hn2 & Hr2).
  split; [by rewrite Ht2, Ht1, app_assoc|]. split; [lia|].
  split; [by rewrite set_keys_app, Hk1, Hk2, fmap_app|]. split.
  - apply NoDup_app. split; [done|]. split; [|done].
    intros i Hi1 Hi2. rewrite Forall_forall in Hr1, Hr2.
    specialize (Hr1 i Hi1). specialize (Hr2 i Hi2). lia.
  - apply Forall_app. split; (eapply Forall_impl; [eassumption|]); simpl; lia.
Qed.

Lemma drawing_setless {A} (m : Run A) : setless m -> drawing env m.
Proof.
  intros Hm w. destruct (Hm w) as (evs & Ht & Hk & Hu).
  exists evs, []. split; [done|]. split; [lia|]. split; [done|].
  split; constructor.
Qed.

Lemma drawing_bind {A B} (m : Run A) (f : A -> Run B) :
  drawing env m -> (forall a, drawing env (f a)) -> drawing env (m ≫= f).
Proof.
  intros Hm Hf w. destruct (Hm w) as (evs1 & idxs1 & H1).
  rewrite bind_run. destruct (m w) as [a w1|e w1|s w1]; simpl in *.
  - destruct (Hf a w1) as (evs2 & idxs2 & H2).
    exists (evs1 ++ evs2), (idxs1 ++ idxs2). by eapply keys_drawn_trans.
  - by exists evs1, idxs1.
  - by exists evs1, idxs1.
Qed.

Lemma drawing_try_except {A} (m : Run A) (h : exn -> Run A) :
  drawing env m -> (forall e, drawing env (h e)) -> drawing env (try_except m h).
Proof.
  intros Hm Hh w. destruct (Hm w) as (evs1 & idxs1 & H1).
  unfold try_except. destruct (m w) as [a w1|e w1|s w1]; simpl in *.
  - by exists evs1, idxs1.
  - destruct (Hh e w1) as (evs2 & idxs2 & H2).
    exists (evs1 ++ evs2), (idxs1 ++ idxs2). by eapply keys_drawn_trans.
  - by exists evs1, idxs1.
Qed.

(** The one place where a key is written: right after its token was
    drawn. *)
Lemma drawing_key_and_set c1 {A} (tail : string -> Run A) :
  (forall key, setless (tail key)) ->
  drawing env (key ← gen_key env; client_set env c1 key key;; tail key).
Proof.
  intros Htail w. rewrite bind_run, gen_key_run, bind_run.
  set (h := tokens env (n_uuid w)). set (key := marker_key h).
  unfold client_set, store_op. simpl.
  destruct (fault env (n_op w)).
  - exists [EvUhex h], []. simpl. split; [done|]. split; [simpl; lia|].
    split; [done|]. split; constructor.
  - set (w4 := emit (EvSet c1 key key) _).
    destruct (Htail key w4) as (evs & Ht & Hk & Hu).
    exists ([EvUhex h; EvSet c1 key key] ++ evs), [n_uuid w].
    split; [|split; [|split; [|split]]].
    + rewrite Ht. subst w4. simpl. rewrite <- !app_assoc. done.
    + rewrite Hu. subst w4. simpl. lia.
    + rewrite set_keys_app, Hk. done.
    + apply NoDup_singleton.
    + constructor; [|constructor]. rewrite Hu. subst w4. simpl. lia.
Qed.

Lemma drawing_measure_lags fuel sp dp : drawing env (_measure_lags env fuel sp dp).
Proof.
  unfold _measure_lags.
  apply drawing_bind; [apply drawing_setless, setless_get_client|]. intros c1.
  apply drawing_bind; [apply drawing_setless, setless_get_client|]. intros c2.
  apply (drawing_key_and_set c1). intros key.
  apply setless_bind; [apply setless_time|]. intros t0.
  apply setless_bind; [apply setless_poll|]. intros _.
  apply setless_bind; [apply setless_time|]. intros t1.
  apply setless_bind; [by apply setless_store_op|]. intros _.
  apply setless_bind; [apply setless_release_client|]. intros _.
  apply setless_bind; [apply setless_release_client|]. intros _.
  apply setless_ret.
Qed.

Lemma drawing_for_pools fuel self ps : drawing env (for_pools env fuel self ps).
Proof.
  induction ps as [|[[b sp] dp] ps IH]; simpl.
  - apply drawing_setless, setless_ret.
  - apply drawing_bind; [by apply drawing_setless, setless_tell|]. intros _.
    apply drawing_bind; [apply drawing_measure_lags|]. intros lags.
    apply drawing_bind; [apply drawing_setless, setless_store_append|].
    intros _. exact IH.
Qed.

Lemma drawing_sample rounds fuel self : drawing env (sample env rounds fuel self).
Proof.
  induction rounds as [|rounds IH]; simpl.
  - intros w. exists [], []. simpl. split; [by rewrite app_nil_r|].
    split; [lia|]. split; [done|]. split; constructor.
  - apply drawing_bind; [|intros _; exact IH].
    apply drawing_try_except; [apply drawing_for_pools|].
    intros e. apply drawing_setless, setless_logger_warn.
Qed.

End Keys.

(** X7: in a run of the worker loop, every [set] writes the key of a
    token drawn during the run, and no token is used for two writes; so
    when [uuid4] never repeats a token, the keys written during the
    run, over all buckets and all passes, are pairwise distinct. *)
Theorem sample_never_reuses_a_key env rounds fuel self w :
  (forall i j, tokens env i = tokens env j -> i = j) ->
  NoDup (set_keys (added w (world_of (sample env rounds fuel self w)))) /\
  Forall (fun k => exists i, n_uuid w <= i /\ k = "xdcr_track_" +:+ tokens env i)
         (set_keys (added w (world_of (sample env rounds fuel self w)))).
Proof.
  intros Hinj.
  destruct (drawing_sample env rounds fuel self w)
    as (evs & idxs & Ht & _ & Hk & Hn & Hr).
  rewrite (added_app _ _ _ Ht), Hk. split.
  - apply NoDup_fmap_2_strong; [|done].
    intros i j _ _ Heq. apply Hinj. by apply marker_key_inj.
  - apply Forall_fmap. eapply Forall_impl; [exact Hr|].
    intros i [Hi _]. simpl. exists i. split; [exact Hi|done].
Qed.

Lemma scenario_token_length n :
  String.length (String.concat "" (replicate (S n) "a")) = S n.
Proof.
  induction n as [|n IH]; [reflexivity|].
  change (S (String.length (String.concat "" (replicate (S n) "a"))) = S (S n)).
  by rewrite IH.
Qed.

(** Two passes over beer and wine on the concrete deployment. *)
Lemma sample_never_reuses_a_key_witness :
  NoDup (set_keys (added Scenario.ready
           (world_of (sample Scenario.healthy 2 5 Scenario.self Scenario.ready)))) /\
  Forall (fun k => exists i, n_uuid Scenario.ready <= i /\
                             k = "xdcr_track_" +:+ tokens Scenario.healthy i)
         (set_keys (added Scenario.ready
           (world_of (sample Scenario.healthy 2 5 Scenario.self Scenario.ready)))).
Proof.
  apply (sample_never_reuses_a_key Scenario.healthy 2 5 Scenario.self Scenario.ready).
  intros i j Heq. apply (f_equal String.length) in Heq.
  change (String.length (String.concat "" (replicate (S i) "a"))
          = String.length (String.concat "" (replicate (S j) "a"))) in Heq.
  rewrite !scenario_token_length in Heq. lia.
Defined.
